(** * go-seeder: the seeder registry and its command-line front end

    A shallow embedding of [SeederManager] (manager.go) and [CLI] (cli.go).

    - Go [error] values are an inductive type: a plain message, or a message
      wrapping a cause (what [fmt.Errorf] builds with the [%w] verb).
    - A seeder function [func() error] is a total function on an abstract
      [World] (everything a callback can touch: the database, a test's
      execution log, ...).  Seeders are non-nil and do not call back into
      the manager that runs them.
    - Methods run in a state monad over the process state: the manager
      object, the world, the lines written through package [log], and the
      seeder functions invoked so far.  [os.Exit] ends the computation.
    - [seederMap] is a [gmap]; [seeders] is a list, appended at its end. *)

From Stdlib Require Import Ascii.
From stdpp Require Import gmap strings list pretty.

(** ** Errors and formatting *)

Inductive error : Type :=
| errorString (s : string)
| wrapError (msg : string) (err : error).

(** [err.Error()] *)
Definition Error (e : error) : string :=
  match e with
  | errorString s => s
  | wrapError msg _ => msg
  end.

(** [errors.Unwrap(err)] *)
Definition Unwrap (e : error) : option error :=
  match e with
  | errorString _ => None
  | wrapError _ err => Some err
  end.

(** Operands of the formatting verbs used by the package. *)
Inductive operand : Type :=
| OString (s : string)
| OInt (n : nat)
| OStrings (l : list string)
| OError (e : error).

(** [strings.Join(l, sep)] *)
Fixpoint Join (l : list string) (sep : string) : string :=
  match l with
  | [] => ""
  | [s] => s
  | s :: l' => s +:+ sep +:+ Join l' sep
  end.

(** The default rendering of an operand: [%s] of a string, [%d] of an int,
    [%v] of a []string, [%w] of an error. *)
Definition render (o : operand) : string :=
  match o with
  | OString s => s
  | OInt n => pretty n
  | OStrings l => "[" +:+ Join l " " +:+ "]"
  | OError e => Error e
  end.

(** [fmt.Sprintf] for formats made of plain verbs: every [%x] consumes the
    next operand, [%%] is a percent sign.  The format strings of this
    package only pair a verb with an operand of its own type. *)
Fixpoint Sprintf (format : string) (args : list operand) : string :=
  match format with
  | EmptyString => EmptyString
  | String c rest =>
      if decide (c = "%"%char) then
        match rest with
        | EmptyString => "%!(NOVERB)"
        | String v rest' =>
            if decide (v = "%"%char) then String v (Sprintf rest' args)
            else
              match args with
              | a :: args' => render a +:+ Sprintf rest' args'
              | [] => "%!" +:+ String v "(MISSING)" +:+ Sprintf rest' []
              end
        end
      else String c (Sprintf rest args)
  end.

(** The operand of the first [%w], when there is one. *)
Fixpoint wrapped (format : string) (args : list operand) : option error :=
  match format with
  | EmptyString => None
  | String c rest =>
      if decide (c = "%"%char) then
        match rest with
        | EmptyString => None
        | String v rest' =>
            if decide (v = "%"%char) then wrapped rest' args
            else
              match args with
              | a :: args' =>
                  match a with
                  | OError e =>
                      if decide (v = "w"%char) then Some e else wrapped rest' args'
                  | _ => wrapped rest' args'
                  end
              | [] => None
              end
        end
      else wrapped rest args
  end.

(** [fmt.Errorf] *)
Definition Errorf (format : string) (args : list operand) : error :=
  match wrapped format args with
  | Some e => wrapError (Sprintf format args) e
  | None => errorString (Sprintf format args)
  end.

(** [strings.Repeat(s, count)] *)
Fixpoint Repeat (s : string) (count : nat) : string :=
  match count with
  | O => ""
  | S n => s +:+ Repeat s n
  end.

(** Substring test, for statements about what a message contains. *)
Definition Contains (s sub : string) : Prop :=
  exists pre post, s = pre +:+ sub +:+ post.


(** ** Process state and the monad of methods *)

Section Seeder.

Context {World : Type}.

(** [func() error]: [None] is the nil error. *)
Definition SeederFunc : Type := World -> option error * World.

(** [type SeederItem struct] *)
Record SeederItem : Type := mkSeederItem {
  Name : string;
  Function : SeederFunc
}.

(** [type SeederManager struct] *)
Record SeederManager : Type := mkSeederManager {
  seeders : list SeederItem;
  seederMap : gmap string SeederFunc
}.

(** What a run of the program acts on. [invoked] lists the seeder functions
    called so far, oldest first. *)
Record Proc : Type := mkProc {
  manager : SeederManager;
  world : World;
  logged : list string;
  invoked : list SeederFunc
}.

Inductive outcome (A : Type) : Type :=
| Ret (a : A)
| Exit (code : Z).
Global Arguments Ret {A} a.
Global Arguments Exit {A} code.

Definition Go (A : Type) : Type := Proc -> outcome A * Proc.

Global Instance Go_ret : MRet Go := fun A (a : A) st => (Ret a, st).

Global Instance Go_bind : MBind Go := fun A B (k : A -> Go B) (m : Go A) st =>
  match m st with
  | (Ret a, st') => k a st'
  | (Exit code, st') => (Exit code, st')
  end.

(** The state a computation leaves, and the value it returns. *)
Definition after {A} (m : Go A) (st : Proc) : Proc := (m st).2.
Definition result {A} (m : Go A) (st : Proc) : outcome A := (m st).1.

Definition getManager : Go SeederManager := fun st => (Ret (manager st), st).

Definition modifyManager (f : SeederManager -> SeederManager) : Go unit :=
  fun st => (Ret tt, mkProc (f (manager st)) (world st) (logged st) (invoked st)).

(** [log.Println(line)] *)
Definition Println (line : string) : Go unit :=
  fun st => (Ret tt, mkProc (manager st) (world st) (logged st ++ [line]) (invoked st)).

(** [log.Printf(format, args...)] *)
Definition Printf (format : string) (args : list operand) : Go unit :=
  Println (Sprintf format args).

(** Calling a seeder function value. *)
Definition call (function : SeederFunc) : Go (option error) :=
  fun st =>
    let (err, w) := function (world st) in
    (Ret err, mkProc (manager st) w (logged st) (invoked st ++ [function])).

(** [os.Exit(code)] *)
Definition os_Exit (code : Z) : Go unit := fun st => (Exit code, st).

(** [for i, x := range l { body }], counting from [i]. *)
Fixpoint for_range_from {A R} (i : nat) (l : list A) (body : nat -> A -> Go (option R))
  : Go (option R) :=
  match l with
  | [] => mret None
  | x :: l' =>
      r ← body i x;
      match r with
      | Some v => mret (Some v)
      | None => for_range_from (S i) l' body
      end
  end.

(** [for _, x := range l { body }] where the body may [return]: the body
    yields [Some r] to return [r] from the enclosing function and [None] to
    go on with the next element. *)
Fixpoint for_range {A R} (l : list A) (body : A -> Go (option R)) : Go (option R) :=
  match l with
  | [] => mret None
  | x :: l' =>
      r ← body x;
      match r with
      | Some v => mret (Some v)
      | None => for_range l' body
      end
  end.

(** ** manager.go *)

(** [NewSeederManager] *)
Definition NewSeederManager : SeederManager :=
  {| seeders := []; seederMap := ∅ |}.

(** [RegisterSeeder] *)
Definition RegisterSeeder (name : string) (function : SeederFunc) : Go (option error) :=
  if decide (name = "") then
    mret (Some (Errorf "seeder name cannot be empty" []))
  else
    sm ← getManager;
    match seederMap sm !! name with
    | Some _ =>
        mret (Some (Errorf "seeder with name '%s' already exists" [OString name]))
    | None =>
        let seederItem := {| Name := name; Function := function |} in
        modifyManager (fun sm =>
          {| seeders := seeders sm ++ [seederItem]; seederMap := seederMap sm |});;
        modifyManager (fun sm =>
          {| seeders := seeders sm; seederMap := <[name := function]> (seederMap sm) |});;
        Printf "Registered seeder: %s" [OString name];;
        mret None
    end.

(** [RegisterSeeders] *)
Definition RegisterSeeders (items : list SeederItem) : Go (option error) :=
  r ← for_range items (fun seeder =>
         err ← RegisterSeeder (Name seeder) (Function seeder);
         match err with
         | Some e =>
             mret (Some (Errorf "failed to register seeder '%s': %w"
                                [OString (Name seeder); OError e]))
         | None => mret None
         end);
  mret r.

(** The loop of [GetRegisteredSeeders]: [names[i] = seeder.Name]. *)
Fixpoint fill_names (i : nat) (l : list SeederItem) (names : list string) : list string :=
  match l with
  | [] => names
  | seeder :: l' => fill_names (S i) l' (<[i := Name seeder]> names)
  end.

(** [GetRegisteredSeeders] *)
Definition GetRegisteredSeeders (sm : SeederManager) : list string :=
  fill_names 0 (seeders sm) (replicate (length (seeders sm)) "").

(** [RunSeederByName] *)
Definition RunSeederByName (name : string) : Go (option error) :=
  sm ← getManager;
  match seederMap sm !! name with
  | Some function =>
      Printf "Running seeder: %s" [OString name];;
      err ← call function;
      match err with
      | Some e =>
          mret (Some (Errorf "seeder '%s' failed: %w" [OString name; OError e]))
      | None =>
          Printf "Seeder '%s' completed successfully" [OString name];;
          mret None
      end
  | None =>
      mret (Some (Errorf "seeder with name '%s' not found" [OString name]))
  end.

(** [RunSeedersInOrder] *)
Definition RunSeedersInOrder (names : list string) : Go (option error) :=
  r ← for_range names (fun name =>
         err ← RunSeederByName name;
         match err with
         | Some e => mret (Some e)
         | None => mret None
         end);
  mret r.

(** [RunAllSeeders] *)
Definition RunAllSeeders : Go (option error) :=
  Println "Running all seeders...";;
  sm ← getManager;
  r ← for_range (seeders sm) (fun seeder =>
         Printf "Running seeder: %s" [OString (Name seeder)];;
         err ← call (Function seeder);
         match err with
         | Some e =>
             mret (Some (Errorf "seeder '%s' failed: %w"
                                [OString (Name seeder); OError e]))
         | None =>
             Printf "Seeder '%s' completed successfully" [OString (Name seeder)];;
             mret None
         end);
  match r with
  | Some e => mret (Some e)
  | None =>
      Println "All seeders completed successfully!";;
      mret None
  end.

(** [IsSeederRegistered] *)
Definition IsSeederRegistered (sm : SeederManager) (name : string) : bool :=
  match seederMap sm !! name with
  | Some _ => true
  | None => false
  end.

(** ** cli.go *)

(** [strings.ToUpper], from the Go standard library. *)
Context (ToUpper : string -> string).

(** [type CLI struct].  Its [manager] field points to the manager object of
    the process state. *)
Record CLI : Type := mkCLI {
  appName : string
}.

(** [NewCLI] *)
Definition NewCLI : CLI := {| appName := "seeder" |}.

(** [NewCLIWithAppName] *)
Definition NewCLIWithAppName (appName : string) : CLI := {| appName := appName |}.

(** [Usage] *)
Definition Usage (cli : CLI) : Go unit :=
  Println ("=" +:+ Repeat "=" 60);;
  Printf "DATABASE SEEDER - %s" [OString (ToUpper (appName cli))];;
  Println ("=" +:+ Repeat "=" 60);;
  Println "";;
  Println "Usage:";;
  Printf "  %s -type=all     # Run all seeders" [OString (appName cli)];;
  Printf "  %s -type=<name>  # Run specific seeder" [OString (appName cli)];;
  Printf "  %s               # Show this help" [OString (appName cli)];;
  Println "";;
  sm ← getManager;
  let seeders := GetRegisteredSeeders sm in
  if decide (length seeders = 0) then
    Println "No seeders registered yet."
  else
    Println "Available seeders (in execution order):";;
    Println ("-" +:+ Repeat "-" 40);;
    for_range_from (R := Empty_set) 0 seeders (fun i name =>
      Printf "  %d. %s" [OInt (i + 1); OString name];;
      Printf "     Command: %s -type=%s" [OString (appName cli); OString name];;
      Println "";;
      mret None);;
    Println "Quick commands:";;
    Printf "  %s -type=all     # Run all seeders" [OString (appName cli)];;
    Println ("=" +:+ Repeat "=" 60).

(** [Run], given the value of the [-type] flag after [flag.Parse()] (the
    empty string when the flag is absent). *)
Definition Run (cli : CLI) (seedType : string) : Go (option error) :=
  if decide (seedType = "") then
    Usage cli;;
    mret None
  else
    Printf "Starting seeder with type: %s" [OString seedType];;
    if decide (seedType = "all") then
      RunAllSeeders
    else
      sm ← getManager;
      if IsSeederRegistered sm seedType then
        RunSeederByName seedType
      else
        Printf "Unknown seeder type: %s" [OString seedType];;
        sm ← getManager;
        Printf "Available seeders: %v" [OStrings (GetRegisteredSeeders sm)];;
        Usage cli;;
        os_Exit 1;;
        mret None.

End Seeder.

(** ** The error taxonomy, as the messages and chains the code builds *)

Definition InvalidName : error :=
  errorString "seeder name cannot be empty".

Definition DuplicateName (name : string) : error :=
  errorString ("seeder with name '" +:+ name +:+ "' already exists").

Definition NotFound (name : string) : error :=
  errorString ("seeder with name '" +:+ name +:+ "' not found").

Definition ExecutionFailed (name : string) (cause : error) : error :=
  wrapError ("seeder '" +:+ name +:+ "' failed: " +:+ Error cause) cause.

Definition RegistrationFailed (name : string) (cause : error) : error :=
  wrapError ("failed to register seeder '" +:+ name +:+ "': " +:+ Error cause) cause.

Section Sequencing.

Context {World : Type}.

(** [all_nil f l st st']: applying [f] to the elements of [l] one after the
    other, from [st], returns the nil error every time and ends in [st']. *)
Inductive all_nil {A} (f : A -> Go (World := World) (option error))
  : list A -> Proc -> Proc -> Prop :=
| all_nil_nil st : all_nil f [] st st
| all_nil_cons x l st st1 st' :
    f x st = (Ret None, st1) ->
    all_nil f l st1 st' ->
    all_nil f (x :: l) st st'.

(** Registering one item: [RegisterSeeder] on its two fields. *)
Definition register_item (item : SeederItem) : Go (World := World) (option error) :=
  RegisterSeeder (Name item) (Function item).

(** The state [RegisterSeeder] leaves when it registers. *)
Definition registered (name : string) (function : SeederFunc) (st : Proc (World := World))
  : Proc :=
  mkProc
    {| seeders := seeders (manager st) ++ [mkSeederItem name function];
       seederMap := <[name := function]> (seederMap (manager st)) |}
    (world st)
    (logged st ++ ["Registered seeder: " +:+ name])
    (invoked st).

(** One round of the loop of [RunAllSeeders]. *)
Definition run_item (seeder : SeederItem) : Go (World := World) (option error) :=
  Printf "Running seeder: %s" [OString (Name seeder)];;
  err ← call (Function seeder);
  match err with
  | Some e =>
      mret (Some (Errorf "seeder '%s' failed: %w" [OString (Name seeder); OError e]))
  | None =>
      Printf "Seeder '%s' completed successfully" [OString (Name seeder)];;
      mret None
  end.

(** [st] with [lines] put in front of what it has logged, and with nothing
    logged. *)
Definition relog (lines : list string) (st : Proc (World := World)) : Proc :=
  mkProc (manager st) (world st) (lines ++ logged st) (invoked st).

Definition quiet (st : Proc (World := World)) : Proc :=
  mkProc (manager st) (world st) [] (invoked st).

(** The loop of [Usage] over the names, started at index [i]. *)
Definition usage_loop (cli : CLI) (i : nat) (names : list string)
  : Go (World := World) (option Empty_set) :=
  for_range_from i names (fun i name =>
    Printf "  %d. %s" [OInt (i + 1); OString name];;
    Printf "     Command: %s -type=%s" [OString (appName cli); OString name];;
    Println "";;
    mret None).

(** A computation whose outcome does not depend on what has been logged
    before it starts. *)
Definition log_framed {A} (m : Go (World := World) A) : Prop :=
  forall lines st, m (relog lines st) = ((m st).1, relog lines (m st).2).

(** The calls a client can make on a manager. *)
Inductive request : Type :=
| ReqRegisterSeeder (name : string) (function : SeederFunc (World := World))
| ReqRegisterSeeders (items : list (SeederItem (World := World)))
| ReqGetRegisteredSeeders
| ReqIsSeederRegistered (name : string)
| ReqRunSeederByName (name : string)
| ReqRunSeedersInOrder (names : list string)
| ReqRunAllSeeders.

Definition serve (r : request) : Go (World := World) unit :=
  match r with
  | ReqRegisterSeeder name function => RegisterSeeder name function;; mret tt
  | ReqRegisterSeeders items => RegisterSeeders items;; mret tt
  | ReqGetRegisteredSeeders => sm ← getManager; let _ := GetRegisteredSeeders sm in mret tt
  | ReqIsSeederRegistered name => sm ← getManager; let _ := IsSeederRegistered sm name in mret tt
  | ReqRunSeederByName name => RunSeederByName name;; mret tt
  | ReqRunSeedersInOrder names => RunSeedersInOrder names;; mret tt
  | ReqRunAllSeeders => RunAllSeeders;; mret tt
  end.

(** A process that has just built its manager with [NewSeederManager]. *)
Definition fresh (w : World) (lines : list string) : Proc :=
  mkProc NewSeederManager w lines [].

(** The states a process goes through: a fresh manager, then any calls. *)
Inductive reachable : Proc (World := World) -> Prop :=
| reachable_fresh w lines : reachable (fresh w lines)
| reachable_serve st r : reachable st -> reachable (after (serve r) st).

(** Serving a list of calls, first to last. *)
Fixpoint replay (rs : list request) (st : Proc) : Proc :=
  match rs with
  | [] => st
  | r :: rs' => replay rs' (after (serve r) st)
  end.

(** The names whose registration succeeds when [items] are registered one
    by one from [st], up to the first failure. *)
Fixpoint registered_names (items : list SeederItem) (st : Proc) : list string :=
  match items with
  | [] => []
  | item :: items' =>
      match register_item item st with
      | (Ret None, st') => Name item :: registered_names items' st'
      | _ => []
      end
  end.

(** The names a call registers. *)
Definition registered_by (r : request) (st : Proc) : list string :=
  match r with
  | ReqRegisterSeeder name function => registered_names [mkSeederItem name function] st
  | ReqRegisterSeeders items => registered_names items st
  | _ => []
  end.

(** The successful registrations of a list of calls, in the order they
    happen. *)
Fixpoint registrations (rs : list request) (st : Proc) : list string :=
  match rs with
  | [] => []
  | r :: rs' => registered_by r st ++ registrations rs' (after (serve r) st)
  end.

(** The invariant of the manager: the slice and the map hold the same
    seeders, each name once, none of them empty. *)
Record consistent (sm : SeederManager (World := World)) : Prop := mkConsistent {
  consistent_lookup : forall item,
    item ∈ seeders sm -> seederMap sm !! Name item = Some (Function item);
  consistent_keys : forall name,
    is_Some (seederMap sm !! name) -> name ∈ Name <$> seeders sm;
  consistent_NoDup : NoDup (Name <$> seeders sm);
  consistent_nonempty : "" ∉ Name <$> seeders sm
}.

End Sequencing.

(** ** The text of [Usage] *)

Section UsageText.

Context (ToUpper : string -> string) (cli : CLI).

Definition usage_rule : string := "=" +:+ Repeat "=" 60.

(** The banner and the three invocation forms. *)
Definition usage_head : list string :=
  [usage_rule;
   "DATABASE SEEDER - " +:+ ToUpper (appName cli);
   usage_rule;
   "";
   "Usage:";
   "  " +:+ appName cli +:+ " -type=all     # Run all seeders";
   "  " +:+ appName cli +:+ " -type=<name>  # Run specific seeder";
   "  " +:+ appName cli +:+ "               # Show this help";
   ""].

(** The entry of the seeder at index [i] (from 0): its number and name, its
    command, an empty line. *)
Definition usage_entry (i : nat) (name : string) : list string :=
  ["  " +:+ pretty (i + 1) +:+ ". " +:+ name;
   "     Command: " +:+ appName cli +:+ " -type=" +:+ name;
   ""].

Definition usage_listing_head : list string :=
  ["Available seeders (in execution order):"; "-" +:+ Repeat "-" 40].

Definition usage_foot : list string :=
  ["Quick commands:";
   "  " +:+ appName cli +:+ " -type=all     # Run all seeders";
   usage_rule].

Definition usage_text (names : list string) : list string :=
  usage_head ++
  match names with
  | [] => ["No seeders registered yet."]
  | _ => usage_listing_head ++ concat (imap usage_entry names) ++ usage_foot
  end.

End UsageText.

(** ** A concrete process, after the package's tests

    The world is the execution log that the test seeders append their name
    to; [upper] is [strings.ToUpper] on ASCII text. *)

Module Demo.

Definition World : Type := list string.

Definition ok (name : string) : SeederFunc (World := World) :=
  fun w => (None, w ++ [name]).

Definition failing (name msg : string) : SeederFunc (World := World) :=
  fun w => (Some (errorString msg), w ++ [name]).

Definition upper_ascii (c : ascii) : ascii :=
  let n := nat_of_ascii c in
  if (97 <=? n) && (n <=? 122) then ascii_of_nat (n - 32) else c.

Fixpoint upper (s : string) : string :=
  match s with
  | EmptyString => EmptyString
  | String c s' => String (upper_ascii c) (upper s')
  end.

Definition cli : CLI := NewCLIWithAppName "my-app seeder".

Definition st_new : Proc (World := World) := fresh [] [].

Definition register_users : request (World := World) :=
  ReqRegisterSeeder "users" (ok "users").

Definition register_departments : request (World := World) :=
  ReqRegisterSeeder "departments" (ok "departments").

(** [users] then [departments], both succeeding. *)
Definition st_two : Proc (World := World) :=
  replay [register_users; register_departments] st_new.

(** [A] succeeds, [B] fails with [boom], [C] succeeds. *)
Definition st_abc : Proc (World := World) :=
  replay [ReqRegisterSeeder "A" (ok "A");
          ReqRegisterSeeder "B" (failing "B" "boom");
          ReqRegisterSeeder "C" (ok "C")] st_new.


End Demo.

(** ** The test utilities (test_utils.go)

    The seeders the tests build write to execution logs, [*[]string]
    variables that several closures share: the world of these seeders is
    the store of such variables, by address; a variable that is not in the
    store yet holds the empty slice. *)

(** [&TestError{Message}]: its [Error()] is the message, and it wraps no
    cause. *)
Definition TestError (Message : string) : error := errorString Message.

Module TestSeederFunction.

(** [type TestSeederFunction struct]; [ExecutionLog] is nil or the address
    of a log. *)
Record t : Type := mk {
  Name : string;
  ShouldError : bool;
  ErrorMsg : string;
  ExecutionLog : option nat
}.

End TestSeederFunction.

(** [CreateTestSeeder] *)
Definition CreateTestSeeder (config : TestSeederFunction.t)
  : SeederFunc (World := gmap nat (list string)) :=
  fun w =>
    let w' :=
      match TestSeederFunction.ExecutionLog config with
      | Some p => <[p := default [] (w !! p) ++ [TestSeederFunction.Name config]]> w
      | None => w
      end in
    if TestSeederFunction.ShouldError config then
      if decide (TestSeederFunction.ErrorMsg config ≠ "") then
        (Some (TestError (TestSeederFunction.ErrorMsg config)), w')
      else (Some (TestError "test error"), w')
    else (None, w').

Module TestDataBuilder.

(** [type TestDataBuilder struct] *)
Record t : Type := mk {
  seeders : list (SeederItem (World := gmap nat (list string)))
}.

(** [NewTestDataBuilder] *)
Definition NewTestDataBuilder : t := {| seeders := [] |}.

(** [AddSeeder] *)
Definition AddSeeder (name : string) (function : SeederFunc) (tdb : t) : t :=
  {| seeders := seeders tdb ++ [mkSeederItem name function] |}.

(** [AddTestSeeder] *)
Definition AddTestSeeder (config : TestSeederFunction.t) (tdb : t) : t :=
  {| seeders :=
       seeders tdb ++
       [mkSeederItem (TestSeederFunction.Name config) (CreateTestSeeder config)] |}.

(** [Build] *)
Definition Build (tdb : t) : list SeederItem := seeders tdb.

End TestDataBuilder.

(** The configurations whose seeders run when [RunAllSeeders] goes through
    them in order: up to the first that is to fail, with it. *)
Fixpoint executed (configs : list TestSeederFunction.t) : list TestSeederFunction.t :=
  match configs with
  | [] => []
  | config :: configs' =>
      config :: (if TestSeederFunction.ShouldError config then [] else executed configs')
  end.

(** The error of the first configuration that is to fail, as
    [RunAllSeeders] wraps it. *)
Fixpoint first_failure (configs : list TestSeederFunction.t) : option error :=
  match configs with
  | [] => None
  | config :: configs' =>
      if TestSeederFunction.ShouldError config then
        Some (ExecutionFailed (TestSeederFunction.Name config)
                (TestError (if decide (TestSeederFunction.ErrorMsg config = "")
                            then "test error"
                            else TestSeederFunction.ErrorMsg config)))
      else first_failure configs'
  end.

Module TestSeederManager.

Section Methods.

Context {World : Type}.

(** [type TestSeederManager struct] *)
Record t : Type := mk {
  seeders : list (SeederItem (World := World));
  seederMap : gmap string (SeederFunc (World := World));
  shouldError : bool;
  errorMsg : string
}.

(** [NewTestSeederManager] *)
Definition NewTestSeederManager : t :=
  {| seeders := []; seederMap := ∅; shouldError := false; errorMsg := "" |}.

(** [SetErrorBehavior] *)
Definition SetErrorBehavior (shouldError : bool) (errorMsg : string) (tsm : t) : t :=
  {| seeders := seeders tsm; seederMap := seederMap tsm;
     shouldError := shouldError; errorMsg := errorMsg |}.

(** [RegisterSeeder] *)
Definition RegisterSeeder (name : string) (function : SeederFunc) (tsm : t)
  : option error * t :=
  if shouldError tsm then
    if decide (errorMsg tsm ≠ "") then (Some (TestError (errorMsg tsm)), tsm)
    else (Some (TestError "registration error"), tsm)
  else if decide (name = "") then
    (Some (TestError "seeder name cannot be empty"), tsm)
  else
    match seederMap tsm !! name with
    | Some _ =>
        (Some (TestError ("seeder with name '" +:+ name +:+ "' already exists")), tsm)
    | None =>
        let seederItem := {| Name := name; Function := function |} in
        (None,
         {| seeders := seeders tsm ++ [seederItem];
            seederMap := <[name := function]> (seederMap tsm);
            shouldError := shouldError tsm; errorMsg := errorMsg tsm |})
    end.

(** [RegisterSeeders] *)
Fixpoint RegisterSeeders (items : list SeederItem) (tsm : t) : option error * t :=
  match items with
  | [] => (None, tsm)
  | seeder :: items' =>
      match RegisterSeeder (Name seeder) (Function seeder) tsm with
      | (Some err, tsm') =>
          (Some (TestError ("failed to register seeder '" +:+ Name seeder +:+ "': "
                            +:+ Error err)), tsm')
      | (None, tsm') => RegisterSeeders items' tsm'
      end
  end.

(** [GetRegisteredSeeders] *)
Definition GetRegisteredSeeders (tsm : t) : list string :=
  fill_names 0 (seeders tsm) (replicate (length (seeders tsm)) "").

(** [RunSeederByName] *)
Definition RunSeederByName (name : string) (tsm : t) (w : World) : option error * World :=
  if shouldError tsm then
    if decide (errorMsg tsm ≠ "") then (Some (TestError (errorMsg tsm)), w)
    else (Some (TestError "execution error"), w)
  else
    match seederMap tsm !! name with
    | Some function => function w
    | None => (Some (TestError ("seeder with name '" +:+ name +:+ "' not found")), w)
    end.

(** [RunSeedersInOrder] *)
Fixpoint RunSeedersInOrder (names : list string) (tsm : t) (w : World)
  : option error * World :=
  match names with
  | [] => (None, w)
  | name :: names' =>
      match RunSeederByName name tsm w with
      | (Some err, w') => (Some err, w')
      | (None, w') => RunSeedersInOrder names' tsm w'
      end
  end.

(** The loop of [RunAllSeeders]. *)
Fixpoint run_seeders (items : list SeederItem) (w : World) : option error * World :=
  match items with
  | [] => (None, w)
  | seeder :: items' =>
      match Function seeder w with
      | (Some err, w') =>
          (Some (TestError ("seeder '" +:+ Name seeder +:+ "' failed: " +:+ Error err)), w')
      | (None, w') => run_seeders items' w'
      end
  end.

(** [RunAllSeeders] *)
Definition RunAllSeeders (tsm : t) (w : World) : option error * World :=
  run_seeders (seeders tsm) w.

(** [IsSeederRegistered] *)
Definition IsSeederRegistered (tsm : t) (name : string) : bool :=
  match seederMap tsm !! name with
  | Some _ => true
  | None => false
  end.

End Methods.

End TestSeederManager.

(** A test manager and a manager that hold the same seeders. *)
Definition same_registry {World : Type} (tsm : TestSeederManager.t (World := World))
    (sm : SeederManager (World := World)) : Prop :=
  TestSeederManager.seeders tsm = seeders sm ∧
  TestSeederManager.seederMap tsm = seederMap sm.

(** [TestHelper.CreateErrorSeeder] *)
Definition CreateErrorSeeder (name errorMsg : string)
  : SeederItem (World := gmap nat (list string)) :=
  {| Name := name;
     Function :=
       CreateTestSeeder
         {| TestSeederFunction.Name := name;
            TestSeederFunction.ShouldError := true;
            TestSeederFunction.ErrorMsg := errorMsg;
            TestSeederFunction.ExecutionLog := None |} |}.

(** ** A concrete test run: three configurations that share the log at
    address 0, the second of them failing *)

Module TestDemo.

Definition config (name : string) (fails : bool) : TestSeederFunction.t :=
  {| TestSeederFunction.Name := name;
     TestSeederFunction.ShouldError := fails;
     TestSeederFunction.ErrorMsg := "";
     TestSeederFunction.ExecutionLog := Some 0 |}.

Definition configs : list TestSeederFunction.t :=
  [config "users" false; config "departments" true; config "roles" false].

Definition built : list (SeederItem (World := gmap nat (list string))) :=
  TestDataBuilder.Build
    (foldl (flip TestDataBuilder.AddTestSeeder) TestDataBuilder.NewTestDataBuilder configs).

(** A manager and a test manager that have registered what was built. *)
Definition st_built : Proc (World := gmap nat (list string)) :=
  after (RegisterSeeders built) (fresh ∅ []).

Definition tsm_built : TestSeederManager.t (World := gmap nat (list string)) :=
  (TestSeederManager.RegisterSeeders built TestSeederManager.NewTestSeederManager).2.

End TestDemo.

(** ** Basic facts *)

Lemma append_nil_r (s : string) : s +:+ "" = s.
Proof. induction s as [|c s IH]; [done|]. cbv [String.append]. fold String.append. by f_equal. Qed.

Lemma append_assoc (s t u : string) : (s +:+ t) +:+ u = s +:+ t +:+ u.
Proof.
  induction s as [|c s IH]; [done|].
  cbv [String.append]. fold String.append. by f_equal.
Qed.

Lemma Errorf_InvalidName : Errorf "seeder name cannot be empty" [] = InvalidName.
Proof. reflexivity. Qed.

Lemma Errorf_DuplicateName name :
  Errorf "seeder with name '%s' already exists" [OString name] = DuplicateName name.
Proof. reflexivity. Qed.

Lemma Errorf_NotFound name :
  Errorf "seeder with name '%s' not found" [OString name] = NotFound name.
Proof. reflexivity. Qed.

Lemma Errorf_ExecutionFailed name e :
  Errorf "seeder '%s' failed: %w" [OString name; OError e] = ExecutionFailed name e.
Proof.
  unfold ExecutionFailed. rewrite <- (append_nil_r (Error e)). reflexivity.
Qed.

Lemma Errorf_RegistrationFailed name e :
  Errorf "failed to register seeder '%s': %w" [OString name; OError e]
  = RegistrationFailed name e.
Proof.
  unfold RegistrationFailed. rewrite <- (append_nil_r (Error e)). reflexivity.
Qed.

Lemma Sprintf_Registered name :
  Sprintf "Registered seeder: %s" [OString name] = "Registered seeder: " +:+ name.
Proof.
  change (Sprintf _ _) with ("Registered seeder: " +:+ name +:+ "").
  by rewrite append_nil_r.
Qed.

Lemma Sprintf_Running name :
  Sprintf "Running seeder: %s" [OString name] = "Running seeder: " +:+ name.
Proof.
  change (Sprintf _ _) with ("Running seeder: " +:+ name +:+ "").
  by rewrite append_nil_r.
Qed.

Lemma Sprintf_completed name :
  Sprintf "Seeder '%s' completed successfully" [OString name]
  = "Seeder '" +:+ name +:+ "' completed successfully".
Proof. reflexivity. Qed.

Lemma Sprintf_Starting name :
  Sprintf "Starting seeder with type: %s" [OString name]
  = "Starting seeder with type: " +:+ name.
Proof.
  change (Sprintf _ _) with ("Starting seeder with type: " +:+ name +:+ "").
  by rewrite append_nil_r.
Qed.

Lemma Sprintf_Unknown name :
  Sprintf "Unknown seeder type: %s" [OString name] = "Unknown seeder type: " +:+ name.
Proof.
  change (Sprintf _ _) with ("Unknown seeder type: " +:+ name +:+ "").
  by rewrite append_nil_r.
Qed.

Lemma Sprintf_Available names :
  Sprintf "Available seeders: %v" [OStrings names]
  = "Available seeders: [" +:+ Join names " " +:+ "]".
Proof.
  change (Sprintf _ _) with ("Available seeders: " +:+ ("[" +:+ Join names " " +:+ "]") +:+ "").
  by rewrite append_nil_r.
Qed.

Lemma Sprintf_banner name :
  Sprintf "DATABASE SEEDER - %s" [OString name] = "DATABASE SEEDER - " +:+ name.
Proof.
  change (Sprintf _ _) with ("DATABASE SEEDER - " +:+ name +:+ "").
  by rewrite append_nil_r.
Qed.

Lemma Sprintf_run_all app :
  Sprintf "  %s -type=all     # Run all seeders" [OString app]
  = "  " +:+ app +:+ " -type=all     # Run all seeders".
Proof. reflexivity. Qed.

Lemma Sprintf_run_one app :
  Sprintf "  %s -type=<name>  # Run specific seeder" [OString app]
  = "  " +:+ app +:+ " -type=<name>  # Run specific seeder".
Proof. reflexivity. Qed.

Lemma Sprintf_help app :
  Sprintf "  %s               # Show this help" [OString app]
  = "  " +:+ app +:+ "               # Show this help".
Proof. reflexivity. Qed.

Lemma Sprintf_numbered n name :
  Sprintf "  %d. %s" [OInt n; OString name] = "  " +:+ pretty n +:+ ". " +:+ name.
Proof.
  change (Sprintf _ _) with ("  " +:+ pretty n +:+ ". " +:+ name +:+ "").
  by rewrite append_nil_r.
Qed.

Lemma Sprintf_command app name :
  Sprintf "     Command: %s -type=%s" [OString app; OString name]
  = "     Command: " +:+ app +:+ " -type=" +:+ name.
Proof.
  change (Sprintf _ _) with ("     Command: " +:+ app +:+ " -type=" +:+ name +:+ "").
  by rewrite append_nil_r.
Qed.

#[global] Arguments Sprintf : simpl never.
#[global] Arguments Errorf : simpl never.

Create Rewrite HintDb fmt.

#[local] Hint Rewrite Errorf_InvalidName Errorf_DuplicateName Errorf_NotFound
  Errorf_ExecutionFailed Errorf_RegistrationFailed Sprintf_Registered Sprintf_Running
  Sprintf_completed Sprintf_Starting Sprintf_Unknown Sprintf_Available Sprintf_banner
  Sprintf_run_all Sprintf_run_one Sprintf_help Sprintf_numbered Sprintf_command : fmt.

Lemma Contains_app_l s t sub : Contains s sub -> Contains (s +:+ t) sub.
Proof.
  intros (pre & post & ->). exists pre, (post +:+ t).
  by rewrite !append_assoc.
Qed.

Lemma Contains_app_r s t sub : Contains t sub -> Contains (s +:+ t) sub.
Proof.
  intros (pre & post & ->). exists (s +:+ pre), post.
  by rewrite !append_assoc.
Qed.

Lemma Contains_refl s : Contains s s.
Proof. exists "", "". by rewrite append_nil_r. Qed.

Section Registry.

Context {World : Type}.
Implicit Types (st : Proc (World := World)) (sm : SeederManager (World := World)).
Implicit Types (name : string) (function : SeederFunc (World := World)).

Ltac run := unfold mbind, Go_bind, mret, Go_ret, getManager, modifyManager,
  Printf, Println, call, os_Exit, after, result; simpl.

Lemma RegisterSeeder_unfold name function st :
  RegisterSeeder name function st =
    if decide (name = "") then (Ret (Some InvalidName), st)
    else match seederMap (manager st) !! name with
         | Some _ => (Ret (Some (DuplicateName name)), st)
         | None => (Ret None, registered name function st)
         end.
Proof.
  unfold RegisterSeeder, Printf. autorewrite with fmt.
  case_decide; [done|].
  run. destruct (seederMap (manager st) !! name); reflexivity.
Qed.

Lemma fill_names_spec (l : list (SeederItem (World := World))) (done rest : list string) :
  length rest = length l ->
  fill_names (length done) l (done ++ rest) = done ++ (Name <$> l).
Proof.
  revert done rest. induction l as [|item l IH]; intros done rest Hlen.
  - destruct rest; [done|discriminate].
  - destruct rest as [|s rest]; [discriminate|]. simpl in *.
    rewrite (insert_app_r_alt done (s :: rest)) by lia.
    rewrite Nat.sub_diag. simpl.
    specialize (IH (done ++ [Name item]) rest).
    rewrite length_app, Nat.add_1_r, <- !(assoc_L (++)) in IH.
    apply IH. lia.
Qed.

Lemma GetRegisteredSeeders_names sm : GetRegisteredSeeders sm = Name <$> seeders sm.
Proof.
  unfold GetRegisteredSeeders.
  apply (fill_names_spec (seeders sm) []). by rewrite length_replicate.
Qed.

Lemma bind_unfold {A B} (m : Go (World := World) A) (k : A -> Go B) st :
  (m ≫= k) st =
    match m st with
    | (Ret a, st') => k a st'
    | (Exit code, st') => (Exit code, st')
    end.
Proof. reflexivity. Qed.

Lemma for_range_cons {A R} (x : A) (l : list A) (body : A -> Go (World := World) (option R)) st :
  for_range (x :: l) body st =
    match body x st with
    | (Ret (Some v), st') => (Ret (Some v), st')
    | (Ret None, st') => for_range l body st'
    | (Exit code, st') => (Exit code, st')
    end.
Proof.
  simpl. rewrite bind_unfold. destruct (body x st) as [[[v|]|code] st']; reflexivity.
Qed.

Lemma RegisterSeeders_nil st : RegisterSeeders [] st = (Ret None, st).
Proof. reflexivity. Qed.

Lemma RegisterSeeders_cons item items st :
  RegisterSeeders (item :: items) st =
    match register_item item st with
    | (Ret None, st') => RegisterSeeders items st'
    | (Ret (Some e), st') => (Ret (Some (RegistrationFailed (Name item) e)), st')
    | (Exit code, st') => (Exit code, st')
    end.
Proof.
  unfold RegisterSeeders, register_item.
  rewrite !bind_unfold, for_range_cons, bind_unfold.
  destruct (RegisterSeeder (Name item) (Function item) st) as [[[e|]|code] st'];
    autorewrite with fmt; reflexivity.
Qed.

Lemma RunSeederByName_unfold name st :
  RunSeederByName name st =
    match seederMap (manager st) !! name with
    | Some function =>
        match (function : SeederFunc) (world st) with
        | (Some e, w) =>
            (Ret (Some (ExecutionFailed name e)),
             mkProc (manager st) w (logged st ++ ["Running seeder: " +:+ name])
                    (invoked st ++ [function]))
        | (None, w) =>
            (Ret None,
             mkProc (manager st) w
                    (logged st ++ ["Running seeder: " +:+ name;
                                   "Seeder '" +:+ name +:+ "' completed successfully"])
                    (invoked st ++ [function]))
        end
    | None => (Ret (Some (NotFound name)), st)
    end.
Proof.
  unfold RunSeederByName, Printf. autorewrite with fmt. run.
  destruct (seederMap (manager st) !! name) as [function|]; [|done]. simpl.
  destruct (function (world st)) as [[e|] w]; simpl; autorewrite with fmt; [done|].
  by rewrite <- (assoc_L (++)).
Qed.

Lemma RunSeedersInOrder_nil st : RunSeedersInOrder [] st = (Ret None, st).
Proof. reflexivity. Qed.

Lemma RunSeedersInOrder_cons name names st :
  RunSeedersInOrder (name :: names) st =
    match RunSeederByName name st with
    | (Ret None, st') => RunSeedersInOrder names st'
    | (Ret (Some e), st') => (Ret (Some e), st')
    | (Exit code, st') => (Exit code, st')
    end.
Proof.
  unfold RunSeedersInOrder.
  rewrite !bind_unfold, for_range_cons, bind_unfold.
  destruct (RunSeederByName name st) as [[[e|]|code] st']; reflexivity.
Qed.

(** *** Loops that stop at the first error *)

Section StopAtFirstError.

Context {A : Type} (f : A -> Go (World := World) (option error)).
Context (F : list A -> Go (World := World) (option error)) (wrap : A -> error -> error).
Hypothesis F_nil : forall st, F [] st = (Ret None, st).
Hypothesis F_cons : forall x l st,
  F (x :: l) st =
    match f x st with
    | (Ret None, st') => F l st'
    | (Ret (Some e), st') => (Ret (Some (wrap x e)), st')
    | (Exit code, st') => (Exit code, st')
    end.
Hypothesis f_returns : forall x st, exists r st', f x st = (Ret r, st').

Lemma stop_all_nil l st st' : all_nil f l st st' -> F l st = (Ret None, st').
Proof.
  induction 1 as [st|x l st st1 st' Hx _ IH]; [apply F_nil|].
  by rewrite F_cons, Hx.
Qed.

Lemma stop_first_error pre x post st st1 e st2 :
  all_nil f pre st st1 ->
  f x st1 = (Ret (Some e), st2) ->
  F (pre ++ x :: post) st = (Ret (Some (wrap x e)), st2).
Proof.
  induction 1 as [st|y l st st1 st' Hy _ IH]; intros Hx; simpl.
  - by rewrite F_cons, Hx.
  - rewrite F_cons, Hy. by apply IH.
Qed.

Lemma stop_cases l st :
  (exists st', all_nil f l st st') ∨
  (exists pre x post st1 e st2,
     l = pre ++ x :: post ∧ all_nil f pre st st1 ∧ f x st1 = (Ret (Some e), st2)).
Proof.
  revert st. induction l as [|x l IH]; intros st.
  - left. eexists. constructor.
  - destruct (f_returns x st) as ([e|] & st1 & Hx).
    + right. exists [], x, l, st, e, st1. repeat split; [constructor|done].
    + destruct (IH st1) as [[st' Hall]|(pre & y & post & st2 & e & st3 & -> & Hall & Hy)].
      * left. exists st'. by econstructor.
      * right. exists (x :: pre), y, post, st2, e, st3.
        repeat split; [by econstructor|done].
Qed.

End StopAtFirstError.

Lemma RegisterSeeder_returns name function st :
  exists r st', RegisterSeeder name function st = (Ret r, st').
Proof.
  rewrite RegisterSeeder_unfold. case_decide; [by eauto|].
  destruct (seederMap (manager st) !! name); by eauto.
Qed.

Lemma RunSeederByName_returns name st :
  exists r st', RunSeederByName name st = (Ret r, st').
Proof.
  rewrite RunSeederByName_unfold.
  destruct (seederMap (manager st) !! name) as [function|]; [|by eauto].
  destruct (function (world st)) as [[e|] w]; by eauto.
Qed.

Lemma RegisterSeeder_failure name function st e st' :
  RegisterSeeder name function st = (Ret (Some e), st') -> st' = st.
Proof.
  rewrite RegisterSeeder_unfold. case_decide; [congruence|].
  destruct (seederMap (manager st) !! name); congruence.
Qed.

Lemma RegisterSeeder_success name function st st' :
  RegisterSeeder name function st = (Ret None, st') ->
  name ≠ "" ∧ seederMap (manager st) !! name = None ∧ st' = registered name function st.
Proof.
  rewrite RegisterSeeder_unfold. case_decide; [congruence|].
  destruct (seederMap (manager st) !! name); [congruence|].
  intros [= <-]. done.
Qed.

Lemma IsSeederRegistered_true sm name :
  IsSeederRegistered sm name = true <-> is_Some (seederMap sm !! name).
Proof.
  unfold IsSeederRegistered. destruct (seederMap sm !! name); split; done.
Qed.

Lemma IsSeederRegistered_false sm name :
  IsSeederRegistered sm name = false <-> seederMap sm !! name = None.
Proof. unfold IsSeederRegistered. destruct (seederMap sm !! name); split; done. Qed.

Lemma all_nil_register items st st' :
  all_nil register_item items st st' ->
  seeders (manager st') = seeders (manager st) ++ items ∧
  world st' = world st ∧ invoked st' = invoked st ∧
  (forall name, is_Some (seederMap (manager st) !! name) ∨ name ∈ Name <$> items ->
                is_Some (seederMap (manager st') !! name)).
Proof.
  induction 1 as [st|item items st st1 st' Hitem _ IH].
  - rewrite (right_id_L [] (++)). repeat split.
    intros name [?|Hin]; [done|]. by apply elem_of_nil in Hin.
  - apply RegisterSeeder_success in Hitem as (_ & _ & ->).
    destruct IH as (-> & -> & -> & IH). simpl.
    rewrite <- (assoc_L (++)). destruct item as [n fn]. repeat split.
    intros name Hname. apply IH. simpl in *.
    destruct (decide (n = name)) as [->|Hne].
    + left. rewrite lookup_insert_eq. by eauto.
    + rewrite lookup_insert_ne by done.
      destruct Hname as [?|Hin]; [by left|]. right.
      apply elem_of_cons in Hin as [?|?]; [congruence|done].
Qed.

(** *** The invariant *)

Lemma consistent_new : consistent (NewSeederManager (World := World)).
Proof.
  split; simpl.
  - intros item Hin. by apply elem_of_nil in Hin.
  - intros name [f Hf]. by rewrite lookup_empty in Hf.
  - constructor.
  - apply not_elem_of_nil.
Qed.

Lemma consistent_registered name function st :
  name ≠ "" ->
  seederMap (manager st) !! name = None ->
  consistent (manager st) ->
  consistent (manager (registered name function st)).
Proof.
  intros Hname Hnew [Hlookup Hkeys Hnodup Hnonempty].
  assert (name ∉ Name <$> seeders (manager st)) as Hfresh.
  { intros (item & -> & Hin)%list_elem_of_fmap.
    apply Hlookup in Hin. congruence. }
  split; simpl.
  - intros item [Hin| ->%list_elem_of_singleton]%elem_of_app.
    + rewrite lookup_insert_ne; [by apply Hlookup|].
      intros ->. apply Hfresh. by apply list_elem_of_fmap_2.
    + simpl. by rewrite lookup_insert_eq.
  - intros n Hn. rewrite fmap_app. apply elem_of_app.
    destruct (decide (name = n)) as [->|Hne].
    + right. simpl. by apply list_elem_of_singleton.
    + left. apply Hkeys. by rewrite lookup_insert_ne in Hn.
  - rewrite fmap_app. apply NoDup_app. split; [done|]. split.
    + intros n Hn ->%list_elem_of_singleton. done.
    + simpl. apply NoDup_singleton.
  - rewrite fmap_app. intros [?| ?%list_elem_of_singleton]%elem_of_app; [done|].
    simpl in *. congruence.
Qed.

Lemma RegisterSeeder_consistent name function st :
  consistent (manager st) ->
  consistent (manager (after (RegisterSeeder name function) st)).
Proof.
  intros Hst. unfold after. rewrite RegisterSeeder_unfold.
  case_decide; [done|].
  destruct (seederMap (manager st) !! name) eqn:Hname; [done|].
  by apply consistent_registered.
Qed.

Lemma RegisterSeeders_consistent items st :
  consistent (manager st) ->
  consistent (manager (after (RegisterSeeders items) st)).
Proof.
  revert st. induction items as [|item items IH]; intros st Hst; [done|].
  unfold after. rewrite RegisterSeeders_cons.
  pose proof (RegisterSeeder_consistent (Name item) (Function item) st Hst) as Hitem.
  unfold after, register_item in *.
  destruct (RegisterSeeder (Name item) (Function item) st) as [[[e|]|code] st']; simpl in *;
    [done| |done].
  by apply IH.
Qed.

Lemma RunSeederByName_manager name st :
  manager (after (RunSeederByName name) st) = manager st.
Proof.
  unfold after. rewrite RunSeederByName_unfold.
  destruct (seederMap (manager st) !! name) as [function|]; [|done].
  by destruct (function (world st)) as [[e|] w].
Qed.

Lemma RunSeedersInOrder_manager names st :
  manager (after (RunSeedersInOrder names) st) = manager st.
Proof.
  revert st. induction names as [|name names IH]; intros st; [done|].
  unfold after. rewrite RunSeedersInOrder_cons.
  pose proof (RunSeederByName_manager name st) as Hname. unfold after in *.
  destruct (RunSeederByName name st) as [[[e|]|code] st']; simpl in *; [done| |done].
  by rewrite IH.
Qed.

(** *** [RunAllSeeders] against [RunSeedersInOrder] *)

Lemma RunAllSeeders_unfold st :
  RunAllSeeders st =
    match for_range (seeders (manager st)) run_item
            (mkProc (manager st) (world st) (logged st ++ ["Running all seeders..."])
                    (invoked st)) with
    | (Ret (Some e), st') => (Ret (Some e), st')
    | (Ret None, st') =>
        (Ret None,
         mkProc (manager st') (world st')
                (logged st' ++ ["All seeders completed successfully!"]) (invoked st'))
    | (Exit code, st') => (Exit code, st')
    end.
Proof.
  unfold RunAllSeeders. rewrite bind_unfold. unfold Println at 1. cbv beta iota.
  rewrite bind_unfold. unfold getManager. cbv beta iota. rewrite bind_unfold.
  cbn [manager world logged invoked].
  match goal with |- context [for_range ?l run_item ?s] =>
    change (for_range l _ s) with (for_range l run_item s);
    destruct (for_range l run_item s) as [[[e|]|code] st'] end; reflexivity.
Qed.

Lemma run_item_registered seeder st :
  seederMap (manager st) !! Name seeder = Some (Function seeder) ->
  run_item seeder st = RunSeederByName (Name seeder) st.
Proof.
  intros Hseeder. rewrite RunSeederByName_unfold, Hseeder.
  unfold run_item, Printf. rewrite !bind_unfold. run. autorewrite with fmt.
  destruct (Function seeder (world st)) as [[e|] w]; simpl; autorewrite with fmt; [done|].
  by rewrite <- (assoc_L (++)).
Qed.

Lemma for_range_run_item l st :
  (forall item, item ∈ l -> seederMap (manager st) !! Name item = Some (Function item)) ->
  for_range l run_item st = RunSeedersInOrder (Name <$> l) st.
Proof.
  revert st. induction l as [|item l IH]; intros st Hl; [done|].
  rewrite fmap_cons, RunSeedersInOrder_cons, for_range_cons.
  rewrite run_item_registered by (apply Hl; left).
  pose proof (RunSeederByName_manager (Name item) st) as Hmanager. unfold after in *.
  destruct (RunSeederByName (Name item) st) as [[[e|]|code] st']; simpl in *; [done| |done].
  apply IH. intros item' Hin. rewrite Hmanager. apply Hl. by right.
Qed.

Lemma RunSeederByName_relog lines name st :
  RunSeederByName name (relog lines st) =
    ((RunSeederByName name st).1, relog lines (RunSeederByName name st).2).
Proof.
  rewrite !RunSeederByName_unfold. simpl.
  destruct (seederMap (manager st) !! name) as [function|]; [|done].
  destruct (function (world st)) as [[e|] w]; simpl; unfold relog; simpl;
    by rewrite (assoc_L (++)).
Qed.

Lemma RunSeedersInOrder_relog lines names st :
  RunSeedersInOrder names (relog lines st) =
    ((RunSeedersInOrder names st).1, relog lines (RunSeedersInOrder names st).2).
Proof.
  revert st. induction names as [|name names IH]; intros st; [done|].
  rewrite !RunSeedersInOrder_cons, RunSeederByName_relog.
  destruct (RunSeederByName name st) as [[[e|]|code] st']; simpl; [done| |done].
  apply IH.
Qed.

Lemma RunSeedersInOrder_invoked l st :
  (forall item, item ∈ l -> seederMap (manager st) !! Name item = Some (Function item)) ->
  exists k,
    invoked (after (RunSeedersInOrder (Name <$> l)) st)
    = invoked st ++ (Function <$> take k l).
Proof.
  revert st. induction l as [|item l IH]; intros st Hl.
  - exists 0. simpl. by rewrite (right_id_L [] (++)).
  - unfold after. rewrite fmap_cons, RunSeedersInOrder_cons.
    pose proof (RunSeederByName_manager (Name item) st) as Hmanager. unfold after in *.
    rewrite RunSeederByName_unfold in *. rewrite (Hl item) in * by left.
    destruct (Function item (world st)) as [[e|] w]; simpl in *.
    + by exists 1.
    + match goal with |- context [RunSeedersInOrder _ ?s] =>
        destruct (IH s) as [k Hk] end.
      { intros item' Hin. simpl. apply Hl. by right. }
      exists (S k). unfold after in Hk. rewrite Hk. simpl.
      by rewrite <- (assoc_L (++)).
Qed.

Lemma for_range_manager {A R} (l : list A) (body : A -> Go (World := World) (option R)) :
  (forall x st, manager (after (body x) st) = manager st) ->
  forall st, manager (after (for_range l body) st) = manager st.
Proof.
  intros Hbody. induction l as [|x l IH]; intros st; [done|].
  unfold after in *. rewrite for_range_cons. specialize (Hbody x st).
  destruct (body x st) as [[[v|]|code] st']; simpl in *; [done| |done].
  by rewrite IH.
Qed.

Lemma run_item_manager seeder st : manager (after (run_item seeder) st) = manager st.
Proof.
  unfold after, run_item, Printf. rewrite !bind_unfold. run.
  by destruct (Function seeder (world st)) as [[e|] w].
Qed.

Lemma RunAllSeeders_manager st : manager (after RunAllSeeders st) = manager st.
Proof.
  unfold after. rewrite RunAllSeeders_unfold.
  match goal with |- context [for_range ?l run_item ?s] =>
    pose proof (for_range_manager l run_item run_item_manager s) as H; unfold after in H;
    destruct (for_range l run_item s) as [[[e|]|code] st'] end; simpl in *; by rewrite H.
Qed.

Lemma relog_quiet_lines lines st :
  relog lines (quiet st) = mkProc (manager st) (world st) lines (invoked st).
Proof. unfold relog, quiet. simpl. by rewrite (right_id_L [] (++)). Qed.

Lemma relog_quiet st : relog (logged st) (quiet st) = st.
Proof. rewrite relog_quiet_lines. by destruct st. Qed.

(** *** Reachable states *)

Lemma serve_consistent r st :
  consistent (manager st) -> consistent (manager (after (serve r) st)).
Proof.
  intros Hst. destruct r as [name function|items| |name|name|names|]; unfold after, serve;
    rewrite bind_unfold.
  - pose proof (RegisterSeeder_consistent name function st Hst) as H. unfold after in H.
    by destruct (RegisterSeeder name function st) as [[?|?] ?].
  - pose proof (RegisterSeeders_consistent items st Hst) as H. unfold after in H.
    by destruct (RegisterSeeders items st) as [[?|?] ?].
  - done.
  - done.
  - pose proof (RunSeederByName_manager name st) as H. unfold after in H.
    destruct (RunSeederByName name st) as [[?|?] ?]; simpl in *; by rewrite H.
  - pose proof (RunSeedersInOrder_manager names st) as H. unfold after in H.
    destruct (RunSeedersInOrder names st) as [[?|?] ?]; simpl in *; by rewrite H.
  - pose proof (RunAllSeeders_manager st) as H. unfold after in H.
    destruct (RunAllSeeders st) as [[?|?] ?]; simpl in *; by rewrite H.
Qed.

Lemma replay_app rs rs' st : replay (rs ++ rs') st = replay rs' (replay rs st).
Proof. revert st. induction rs as [|r rs IH]; intros st; [done|]. apply IH. Qed.

Lemma reachable_replay st :
  reachable st <-> exists w lines rs, st = replay rs (fresh w lines).
Proof.
  split.
  - induction 1 as [w lines|st r _ (w & lines & rs & ->)].
    + by exists w, lines, [].
    + exists w, lines, (rs ++ [r]). by rewrite replay_app.
  - intros (w & lines & rs & ->).
    assert (reachable (fresh w lines)) as H by constructor.
    revert H. generalize (fresh w lines). induction rs as [|r rs IH]; intros st Hst; [done|].
    simpl. apply IH. by constructor.
Qed.

Lemma registered_names_spec items st :
  GetRegisteredSeeders (manager (after (RegisterSeeders items) st))
  = GetRegisteredSeeders (manager st) ++ registered_names items st.
Proof.
  rewrite !GetRegisteredSeeders_names.
  revert st. induction items as [|item items IH]; intros st.
  - simpl. by rewrite (right_id_L [] (++)).
  - unfold after in *. rewrite RegisterSeeders_cons. simpl.
    destruct (register_item item st) as [[[e|]|code] st'] eqn:Hitem; simpl.
    + apply RegisterSeeder_failure in Hitem as ->. by rewrite (right_id_L [] (++)).
    + rewrite IH. apply RegisterSeeder_success in Hitem as (_ & _ & ->). simpl.
      by rewrite fmap_app, <- (assoc_L (++)).
    + destruct (RegisterSeeder_returns (Name item) (Function item) st) as (? & ? & ?).
      unfold register_item in Hitem. congruence.
Qed.

Lemma serve_names r st :
  GetRegisteredSeeders (manager (after (serve r) st))
  = GetRegisteredSeeders (manager st) ++ registered_by r st.
Proof.
  destruct r as [name function|items| |name|name|names|]; unfold registered_by.
  - rewrite <- (registered_names_spec [mkSeederItem name function] st).
    unfold after, serve. rewrite bind_unfold, RegisterSeeders_cons.
    unfold register_item. simpl.
    by destruct (RegisterSeeder name function st) as [[[e|]|code] st'].
  - rewrite <- registered_names_spec. unfold after, serve. rewrite bind_unfold.
    by destruct (RegisterSeeders items st) as [[?|?] ?].
  - by rewrite (right_id_L [] (++)).
  - by rewrite (right_id_L [] (++)).
  - rewrite (right_id_L [] (++)). unfold after, serve. rewrite bind_unfold.
    pose proof (RunSeederByName_manager name st) as H. unfold after in H.
    destruct (RunSeederByName name st) as [[?|?] ?]; simpl in *; by rewrite H.
  - rewrite (right_id_L [] (++)). unfold after, serve. rewrite bind_unfold.
    pose proof (RunSeedersInOrder_manager names st) as H. unfold after in H.
    destruct (RunSeedersInOrder names st) as [[?|?] ?]; simpl in *; by rewrite H.
  - rewrite (right_id_L [] (++)). unfold after, serve. rewrite bind_unfold.
    pose proof (RunAllSeeders_manager st) as H. unfold after in H.
    destruct (RunAllSeeders st) as [[?|?] ?]; simpl in *; by rewrite H.
Qed.

Lemma replay_names rs st :
  GetRegisteredSeeders (manager (replay rs st))
  = GetRegisteredSeeders (manager st) ++ registrations rs st.
Proof.
  revert st. induction rs as [|r rs IH]; intros st; simpl.
  - by rewrite (right_id_L [] (++)).
  - by rewrite IH, serve_names, <- (assoc_L (++)).
Qed.

Lemma consistent_registered_iff sm name :
  consistent sm ->
  IsSeederRegistered sm name = true <-> name ∈ GetRegisteredSeeders sm.
Proof.
  intros Hsm. rewrite IsSeederRegistered_true, GetRegisteredSeeders_names. split.
  - apply (consistent_keys _ Hsm).
  - intros (item & -> & Hin)%list_elem_of_fmap.
    rewrite (consistent_lookup _ Hsm item Hin). by eauto.
Qed.

Lemma reachable_consistent st : reachable st -> consistent (manager st).
Proof.
  induction 1 as [w lines|st r _ IH]; [apply consistent_new|by apply serve_consistent].
Qed.

(** *** The claims about registration and execution *)

(** C1. [RegisterSeeder] fails with [InvalidName] on the empty name and with
    [DuplicateName] on a name that is already registered, and leaves the
    whole state as it was in both cases (the map still holds the first
    function of a duplicate name); otherwise it returns nil, having
    appended the new item to the slice and entered it in the map. *)
Theorem RegisterSeeder_correct name function st :
  (name = "" ->
   RegisterSeeder name function st = (Ret (Some InvalidName), st)) ∧
  (forall first,
   name ≠ "" ->
   seederMap (manager st) !! name = Some first ->
   RegisterSeeder name function st = (Ret (Some (DuplicateName name)), st) ∧
   seederMap (manager (after (RegisterSeeder name function) st)) !! name = Some first) ∧
  (name ≠ "" ->
   IsSeederRegistered (manager st) name = false ->
   let st' := after (RegisterSeeder name function) st in
   result (RegisterSeeder name function) st = Ret None ∧
   seeders (manager st') = seeders (manager st) ++ [mkSeederItem name function] ∧
   seederMap (manager st') = <[name := function]> (seederMap (manager st)) ∧
   world st' = world st ∧
   invoked st' = invoked st ∧
   logged st' = logged st ++ ["Registered seeder: " +:+ name]).
Proof.
  unfold after, result. rewrite RegisterSeeder_unfold. split; [|split].
  - intros ->. by rewrite decide_True.
  - intros first Hname Hfirst. rewrite decide_False by done. by rewrite Hfirst.
  - intros Hname Hnew%IsSeederRegistered_false.
    rewrite decide_False by done. by rewrite Hnew.
Qed.

(** C4. [RunSeederByName] on a name that is not registered returns
    [NotFound] and does nothing else; on a registered name it calls the
    function of that name once, returns nil when the function does, and
    otherwise returns [ExecutionFailed], whose message holds the name and
    the cause's message and which unwraps to the cause. *)
Theorem RunSeederByName_correct name st :
  (IsSeederRegistered (manager st) name = false ->
   RunSeederByName name st = (Ret (Some (NotFound name)), st)) ∧
  (forall function w,
   seederMap (manager st) !! name = Some function ->
   function (world st) = (None, w) ->
   let st' := after (RunSeederByName name) st in
   result (RunSeederByName name) st = Ret None ∧
   invoked st' = invoked st ++ [function] ∧
   world st' = w ∧
   manager st' = manager st) ∧
  (forall function cause w,
   seederMap (manager st) !! name = Some function ->
   function (world st) = (Some cause, w) ->
   let st' := after (RunSeederByName name) st in
   let err := ExecutionFailed name cause in
   result (RunSeederByName name) st = Ret (Some err) ∧
   Unwrap err = Some cause ∧
   Contains (Error err) name ∧
   Contains (Error err) (Error cause) ∧
   invoked st' = invoked st ++ [function] ∧
   world st' = w ∧
   manager st' = manager st).
Proof.
  unfold after, result. rewrite RunSeederByName_unfold. split; [|split].
  - intros Hname%IsSeederRegistered_false. by rewrite Hname.
  - intros function w -> ->. done.
  - intros function cause w -> ->. simpl. repeat split.
    + apply Contains_app_r, Contains_app_l, Contains_refl.
    + apply Contains_app_r, Contains_app_r, Contains_app_r, Contains_refl.
Qed.

(** C5. [RunSeedersInOrder] runs [RunSeederByName] on the names one after
    the other in the order given; at the first error it returns that very
    error, in the state the failing call left, so that no later name is
    tried; it returns nil when every call does, and on the empty list it
    returns nil without any effect.  One of the two cases always applies. *)
Theorem RunSeedersInOrder_correct names st :
  RunSeedersInOrder [] st = (Ret None, st) ∧
  (forall st',
   all_nil RunSeederByName names st st' ->
   RunSeedersInOrder names st = (Ret None, st')) ∧
  (forall pre name post st1 err st2,
   names = pre ++ name :: post ->
   all_nil RunSeederByName pre st st1 ->
   RunSeederByName name st1 = (Ret (Some err), st2) ->
   RunSeedersInOrder names st = (Ret (Some err), st2)) ∧
  ((exists st', all_nil RunSeederByName names st st') ∨
   (exists pre name post st1 err st2,
      names = pre ++ name :: post ∧
      all_nil RunSeederByName pre st st1 ∧
      RunSeederByName name st1 = (Ret (Some err), st2))).
Proof.
  split; [apply RunSeedersInOrder_nil|]. split; [|split].
  - intros st'.
    apply (stop_all_nil RunSeederByName RunSeedersInOrder (fun _ e => e));
      auto using RunSeedersInOrder_nil, RunSeedersInOrder_cons.
  - intros pre name post st1 err st2 ->.
    apply (stop_first_error RunSeederByName RunSeedersInOrder (fun _ e => e));
      auto using RunSeedersInOrder_nil, RunSeedersInOrder_cons.
  - apply stop_cases, RunSeederByName_returns.
Qed.

(** C6. [RegisterSeeders] registers the items one after the other with
    [RegisterSeeder]; at the first failure it returns an error that names
    the failing item and wraps the cause, and the items before it stay
    registered; it returns nil when every registration succeeds, and on the
    empty list it returns nil without any effect.  One of the two cases
    always applies. *)
Theorem RegisterSeeders_correct items st :
  RegisterSeeders [] st = (Ret None, st) ∧
  (forall st',
   all_nil register_item items st st' ->
   RegisterSeeders items st = (Ret None, st')) ∧
  (forall pre item post st1 cause st2,
   items = pre ++ item :: post ->
   all_nil register_item pre st st1 ->
   register_item item st1 = (Ret (Some cause), st2) ->
   let err := RegistrationFailed (Name item) cause in
   RegisterSeeders items st = (Ret (Some err), st2) ∧
   Unwrap err = Some cause ∧
   Contains (Error err) (Name item) ∧
   Contains (Error err) (Error cause) ∧
   seeders (manager st2) = seeders (manager st) ++ pre ∧
   (forall done, done ∈ pre -> IsSeederRegistered (manager st2) (Name done) = true)) ∧
  ((exists st', all_nil register_item items st st') ∨
   (exists pre item post st1 cause st2,
      items = pre ++ item :: post ∧
      all_nil register_item pre st st1 ∧
      register_item item st1 = (Ret (Some cause), st2))).
Proof.
  split; [apply RegisterSeeders_nil|]. split; [|split].
  - intros st'.
    apply (stop_all_nil register_item RegisterSeeders (fun item e => RegistrationFailed (Name item) e));
      auto using RegisterSeeders_nil, RegisterSeeders_cons.
  - intros pre item post st1 cause st2 -> Hpre Hitem. simpl. split.
    { apply (stop_first_error register_item RegisterSeeders
               (fun item e => RegistrationFailed (Name item) e)) with st1;
        auto using RegisterSeeders_nil, RegisterSeeders_cons. }
    apply RegisterSeeder_failure in Hitem as ->.
    apply all_nil_register in Hpre as (Hseeders & _ & _ & Hkeys).
    repeat split; [| |done|].
    + apply Contains_app_r, Contains_app_l, Contains_refl.
    + apply Contains_app_r, Contains_app_r, Contains_app_r, Contains_refl.
    + intros done Hdone. apply IsSeederRegistered_true, Hkeys. right.
      by apply list_elem_of_fmap_2.
  - apply stop_cases. intros item st0. apply RegisterSeeder_returns.
Qed.

(** C2. In every reachable state [RunAllSeeders] returns what
    [RunSeedersInOrder] returns on the names of [GetRegisteredSeeders], after
    calling the same functions in the same order (a prefix of the registered
    functions, in registration order) and leaving the same world and the
    same manager.  The two differ only in the opening and closing lines
    that [RunAllSeeders] logs around the lines of the seeders. *)
Theorem RunAllSeeders_as_RunSeedersInOrder st :
  reachable st ->
  let names := GetRegisteredSeeders (manager st) in
  let all := after RunAllSeeders st in
  let ordered := after (RunSeedersInOrder names) st in
  result RunAllSeeders st = result (RunSeedersInOrder names) st ∧
  invoked all = invoked ordered ∧
  (exists k, invoked all = invoked st ++ (Function <$> take k (seeders (manager st)))) ∧
  world all = world ordered ∧
  manager all = manager ordered ∧
  (exists lines,
     logged ordered = logged st ++ lines ∧
     logged all =
       logged st ++ ["Running all seeders..."] ++ lines ++
       match result RunAllSeeders st with
       | Ret None => ["All seeders completed successfully!"]
       | _ => []
       end).
Proof.
  intros Hst%reachable_consistent. simpl.
  rewrite GetRegisteredSeeders_names. unfold after, result.
  rewrite RunAllSeeders_unfold, for_range_run_item
    by (intros item Hin; by apply (consistent_lookup _ Hst)).
  destruct (RunSeedersInOrder_invoked (seeders (manager st)) (quiet st)) as [k Hk].
  { intros item Hin. by apply (consistent_lookup _ Hst). }
  rewrite <- (relog_quiet_lines (logged st ++ ["Running all seeders..."]) st).
  pose proof (RunSeedersInOrder_relog (logged st) (Name <$> seeders (manager st)) (quiet st))
    as Hordered.
  rewrite relog_quiet in Hordered. rewrite Hordered, RunSeedersInOrder_relog.
  clear Hordered. unfold after in Hk.
  destruct (RunSeedersInOrder (Name <$> seeders (manager st)) (quiet st))
    as [[[e|]|code] st']; simpl in *.
  - repeat split; [by exists k|]. exists (logged st').
    by rewrite (right_id_L [] (++)), <- !(assoc_L (++)).
  - repeat split; [by exists k|]. exists (logged st').
    by rewrite <- !(assoc_L (++)).
  - repeat split; [by exists k|]. exists (logged st').
    by rewrite (right_id_L [] (++)), <- !(assoc_L (++)).
Qed.

(** C3. In every reachable state the names of the slice are the keys of
    the map, no name occurs twice, and the slice lists the successful
    registrations in the order they happened, whatever calls led to the
    state; every further call leaves a reachable state whose slice is the
    old one followed by the names that call registered. *)
Theorem registry_invariant st :
  reachable st ->
  let names := GetRegisteredSeeders (manager st) in
  (forall name, name ∈ names <-> name ∈ dom (seederMap (manager st))) ∧
  NoDup names ∧
  (exists w lines rs, st = replay rs (fresh w lines)) ∧
  (forall w lines rs,
     st = replay rs (fresh w lines) -> names = registrations rs (fresh w lines)) ∧
  (forall r,
     let st' := after (serve r) st in
     reachable st' ∧
     GetRegisteredSeeders (manager st') = names ++ registered_by r st).
Proof.
  intros Hreach. pose proof (reachable_consistent st Hreach) as Hst. simpl.
  split; [|split; [|split; [|split]]].
  - intros name. rewrite <- (consistent_registered_iff _ _ Hst), elem_of_dom.
    apply IsSeederRegistered_true.
  - rewrite GetRegisteredSeeders_names. apply (consistent_NoDup _ Hst).
  - by apply reachable_replay.
  - intros w lines rs ->. by rewrite replay_names.
  - intros r. split; [by constructor|apply serve_names].
Qed.

(** C7. In every reachable state [IsSeederRegistered] answers true exactly
    for the keys of the map, which are the names [GetRegisteredSeeders]
    lists, and it answers false for the empty name. *)
Theorem IsSeederRegistered_correct st :
  reachable st ->
  (forall name,
     IsSeederRegistered (manager st) name = true <-> name ∈ dom (seederMap (manager st))) ∧
  (forall name,
     IsSeederRegistered (manager st) name = true
     <-> name ∈ GetRegisteredSeeders (manager st)) ∧
  IsSeederRegistered (manager st) "" = false.
Proof.
  intros Hst%reachable_consistent. split; [|split].
  - intros name. by rewrite elem_of_dom, IsSeederRegistered_true.
  - intros name. by apply consistent_registered_iff.
  - apply not_true_iff_false. rewrite consistent_registered_iff by done.
    rewrite GetRegisteredSeeders_names. apply (consistent_nonempty _ Hst).
Qed.

End Registry.

(** ** The dispatcher *)

Section Dispatcher.

Context {World : Type} (ToUpper : string -> string).
Implicit Types (st : Proc (World := World)) (cli : CLI).

Lemma usage_loop_spec cli i names st :
  usage_loop cli i names st =
    (Ret None,
     mkProc (manager st) (world st)
            (logged st ++ concat (imap (fun j => usage_entry cli (i + j)) names))
            (invoked st)).
Proof.
  revert i st. induction names as [|name names IH]; intros i st.
  - simpl. rewrite (right_id_L [] (++)). by destruct st.
  - transitivity
      (usage_loop cli (S i) names
         (mkProc (manager st) (world st) (logged st ++ usage_entry cli i name) (invoked st))).
    { unfold usage_loop. simpl for_range_from.
      unfold mbind, Go_bind, mret, Go_ret, Printf, Println.
      cbn beta iota delta [manager world logged invoked].
      f_equal. autorewrite with fmt. unfold usage_entry.
      by rewrite <- !(assoc_L (++)). }
    rewrite IH. cbn [manager world logged invoked]. do 2 f_equal.
    rewrite <- (assoc_L (++)). f_equal. rewrite imap_cons.
    change (concat (?x :: ?l)) with (x ++ concat l).
    rewrite Nat.add_0_r. f_equal. f_equal.
    apply imap_ext. intros j x _. simpl. f_equal. lia.
Qed.

Lemma Println_bind {B} line (k : unit -> Go (World := World) B) st :
  (Println line ≫= k) st
  = k tt (mkProc (manager st) (world st) (logged st ++ [line]) (invoked st)).
Proof. reflexivity. Qed.

Lemma Printf_bind {B} format args (k : unit -> Go (World := World) B) st :
  (Printf format args ≫= k) st
  = k tt (mkProc (manager st) (world st) (logged st ++ [Sprintf format args]) (invoked st)).
Proof. reflexivity. Qed.

Lemma getManager_bind {B} (k : SeederManager -> Go (World := World) B) st :
  (getManager ≫= k) st = k (manager st) st.
Proof. reflexivity. Qed.

Lemma usage_loop_bind {B} cli names (k : option Empty_set -> Go (World := World) B) st :
  (usage_loop cli 0 names ≫= k) st
  = k None (mkProc (manager st) (world st)
                   (logged st ++ concat (imap (usage_entry cli) names)) (invoked st)).
Proof. rewrite bind_unfold, usage_loop_spec. reflexivity. Qed.

Lemma Usage_unfold cli st :
  Usage ToUpper cli st =
    (Ret tt,
     mkProc (manager st) (world st)
            (logged st ++ usage_text ToUpper cli (GetRegisteredSeeders (manager st)))
            (invoked st)).
Proof.
  unfold Usage.
  repeat (first [rewrite Println_bind | rewrite Printf_bind | rewrite getManager_bind];
          cbv beta; cbn [manager world logged invoked]).
  autorewrite with fmt. unfold usage_text.
  destruct (GetRegisteredSeeders (manager st)) as [|name names] eqn:Hnames.
  - rewrite decide_True by done. unfold Println.
    cbn [manager world logged invoked].
    do 2 f_equal. unfold usage_head, usage_rule.
    rewrite <- !(assoc_L (++)). cbn [app]. reflexivity.
  - rewrite decide_False by done.
    repeat (first [rewrite Println_bind | rewrite Printf_bind];
            cbv beta; cbn [manager world logged invoked]).
    fold (usage_loop (World := World) cli 0 (name :: names)).
    rewrite usage_loop_bind. cbv beta.
    repeat (first [rewrite Println_bind | rewrite Printf_bind];
            cbv beta; cbn [manager world logged invoked]).
    autorewrite with fmt. unfold Println. cbn [manager world logged invoked].
    do 2 f_equal. unfold usage_head, usage_listing_head, usage_foot, usage_rule.
    rewrite <- !(assoc_L (++)). cbn [app]. reflexivity.
Qed.

(** *** Lines logged earlier do not change a run *)

Lemma for_range_framed {A R} (l : list A) (body : A -> Go (World := World) (option R)) :
  (forall x, log_framed (body x)) -> log_framed (for_range l body).
Proof.
  intros Hbody. induction l as [|x l IH]; intros lines st; [done|].
  rewrite !for_range_cons, Hbody.
  destruct (body x st) as [[[v|]|code] st']; simpl; [done| |done].
  apply IH.
Qed.

Lemma run_item_framed seeder : log_framed (run_item (World := World) seeder).
Proof.
  intros lines st. unfold run_item.
  unfold mbind, Go_bind, mret, Go_ret, Printf, Println, call, relog.
  cbn beta iota delta [manager world logged invoked].
  destruct (Function seeder (world st)) as [[e|] w];
    cbn beta iota delta [manager world logged invoked fst snd];
    by rewrite <- !(assoc_L (++)).
Qed.

Lemma RunAllSeeders_framed : log_framed (RunAllSeeders (World := World)).
Proof.
  intros lines st. rewrite !RunAllSeeders_unfold.
  cbn [relog manager world logged invoked].
  rewrite <- (assoc_L (++)).
  change (mkProc (manager st) (world st) (lines ++ logged st ++ ["Running all seeders..."])
                 (invoked st))
    with (relog lines (mkProc (manager st) (world st)
                              (logged st ++ ["Running all seeders..."]) (invoked st))).
  rewrite (for_range_framed _ _ run_item_framed).
  match goal with |- context [for_range ?l run_item ?s] =>
    destruct (for_range l run_item s) as [[[e|]|code] st'] end; simpl; [done| |done].
  unfold relog. simpl. by rewrite <- (assoc_L (++)).
Qed.

Lemma RunSeederByName_framed name : log_framed (RunSeederByName (World := World) name).
Proof. intros lines st. apply RunSeederByName_relog. Qed.

Lemma Println_relog line st :
  after (Println line) st = relog (logged st ++ [line]) (quiet st).
Proof. by rewrite relog_quiet_lines. Qed.

Lemma framed_after_Println {A} (m : Go (World := World) A) line st :
  log_framed m ->
  let st1 := after (Println line) st in
  result m st1 = result m st ∧
  invoked (after m st1) = invoked (after m st) ∧
  world (after m st1) = world (after m st) ∧
  manager (after m st1) = manager (after m st).
Proof.
  intros Hm. simpl. rewrite Println_relog. unfold after, result.
  pose proof (Hm (logged st) (quiet st)) as Hst. rewrite relog_quiet in Hst.
  by rewrite Hst, Hm.
Qed.



Lemma Run_unfold cli seedType st :
  Run ToUpper cli seedType st =
    if decide (seedType = "") then (Ret None, after (Usage ToUpper cli) st)
    else
      let st1 := after (Println ("Starting seeder with type: " +:+ seedType)) st in
      if decide (seedType = "all") then RunAllSeeders st1
      else if IsSeederRegistered (manager st) seedType then RunSeederByName seedType st1
      else
        (Exit 1,
         after (Usage ToUpper cli)
           (mkProc (manager st) (world st)
              (logged st ++
               ["Starting seeder with type: " +:+ seedType;
                "Unknown seeder type: " +:+ seedType;
                "Available seeders: [" +:+ Join (GetRegisteredSeeders (manager st)) " " +:+ "]"])
              (invoked st))).
Proof.
  unfold Run, after. case_decide.
  { rewrite bind_unfold, Usage_unfold. reflexivity. }
  rewrite Printf_bind. cbv beta. autorewrite with fmt.
  cbv zeta. unfold Println at 1 2. cbn [snd].
  case_decide; [reflexivity|].
  rewrite getManager_bind. cbv beta. cbn [manager world logged invoked].
  destruct (IsSeederRegistered (manager st) seedType); [reflexivity|].
  rewrite Printf_bind. cbv beta. rewrite getManager_bind. cbv beta.
  cbn [manager world logged invoked]. rewrite Printf_bind. cbv beta.
  cbn [manager world logged invoked]. autorewrite with fmt.
  rewrite bind_unfold, !Usage_unfold. cbn [manager world logged invoked snd].
  unfold os_Exit. rewrite bind_unfold. do 2 f_equal.
  rewrite <- !(assoc_L (++)). cbn [app]. reflexivity.
Qed.

(** *** The claims about the dispatcher *)

(** C8. [Run] on the empty selector prints the usage text and returns nil
    without calling any seeder; on [all] it is [RunAllSeeders] (after one
    logged line) and returns what [RunAllSeeders] returns; on any other
    registered name it is [RunSeederByName] of that name and returns what
    that returns; on any other name it logs that the type is unknown, the
    registered names and the usage text, calls no seeder, and exits the
    process with status 1. *)
Theorem Run_correct cli seedType st :
  let started := after (Println ("Starting seeder with type: " +:+ seedType)) st in
  let names := GetRegisteredSeeders (manager st) in
  (seedType = "" ->
   let st' := after (Run ToUpper cli seedType) st in
   result (Run ToUpper cli seedType) st = Ret None ∧
   logged st' = logged st ++ usage_text ToUpper cli names ∧
   invoked st' = invoked st ∧ world st' = world st ∧ manager st' = manager st) ∧
  (seedType = "all" ->
   Run ToUpper cli seedType st = RunAllSeeders started ∧
   result (Run ToUpper cli seedType) st = result RunAllSeeders st ∧
   invoked (after (Run ToUpper cli seedType) st) = invoked (after RunAllSeeders st) ∧
   world (after (Run ToUpper cli seedType) st) = world (after RunAllSeeders st)) ∧
  (seedType ≠ "" -> seedType ≠ "all" ->
   IsSeederRegistered (manager st) seedType = true ->
   Run ToUpper cli seedType st = RunSeederByName seedType started ∧
   result (Run ToUpper cli seedType) st = result (RunSeederByName seedType) st ∧
   invoked (after (Run ToUpper cli seedType) st)
   = invoked (after (RunSeederByName seedType) st) ∧
   world (after (Run ToUpper cli seedType) st)
   = world (after (RunSeederByName seedType) st)) ∧
  (seedType ≠ "" -> seedType ≠ "all" ->
   IsSeederRegistered (manager st) seedType = false ->
   let st' := after (Run ToUpper cli seedType) st in
   result (Run ToUpper cli seedType) st = Exit 1 ∧
   logged st' =
     logged st ++
     ["Starting seeder with type: " +:+ seedType;
      "Unknown seeder type: " +:+ seedType;
      "Available seeders: [" +:+ Join names " " +:+ "]"] ++
     usage_text ToUpper cli names ∧
   invoked st' = invoked st ∧ world st' = world st ∧ manager st' = manager st).
Proof.
  cbv zeta. split; [|split; [|split]].
  - intros ->. unfold after, result. rewrite Run_unfold.
    rewrite decide_True by done. unfold after. by rewrite Usage_unfold.
  - intros ->.
    assert (Run ToUpper cli "all" st
            = RunAllSeeders (after (Println ("Starting seeder with type: " +:+ "all")) st)) as Hrun.
    { rewrite Run_unfold. by rewrite decide_False, decide_True. }
    split; [done|]. unfold after at 1 3, result at 1. rewrite Hrun.
    by destruct (framed_after_Println RunAllSeeders
                   ("Starting seeder with type: " +:+ "all") st RunAllSeeders_framed)
      as (? & ? & ? & _).
  - intros Hne Hnall Hreg.
    assert (Run ToUpper cli seedType st
            = RunSeederByName seedType
                (after (Println ("Starting seeder with type: " +:+ seedType)) st)) as Hrun.
    { rewrite Run_unfold. rewrite !decide_False by done. cbv zeta. by rewrite Hreg. }
    split; [done|]. unfold after at 1 3, result at 1. rewrite Hrun.
    by destruct (framed_after_Println (RunSeederByName seedType)
                   ("Starting seeder with type: " +:+ seedType) st
                   (RunSeederByName_framed seedType))
      as (? & ? & ? & _).
  - intros Hne Hnall Hreg. unfold after, result. rewrite Run_unfold.
    rewrite !decide_False by done. cbv zeta. rewrite Hreg.
    unfold after. rewrite Usage_unfold. cbn [fst snd manager world logged invoked].
    by rewrite <- !(assoc_L (++)).
Qed.

(** C9. [Usage] always returns, leaving everything but the log as it was.
    With no seeder registered it logs the banner and the line that no
    seeders are registered, and nothing else.  Otherwise it logs, between
    the banner, the heading of the listing and the closing lines, one entry
    for each name of [GetRegisteredSeeders], in that order: entry [i] (from
    0) holds the number [i + 1] with the name, and the command that runs
    that seeder alone. *)
Theorem Usage_correct cli st :
  let names := GetRegisteredSeeders (manager st) in
  let st' := after (Usage ToUpper cli) st in
  result (Usage ToUpper cli) st = Ret tt ∧
  manager st' = manager st ∧ world st' = world st ∧ invoked st' = invoked st ∧
  (names = [] ->
   logged st' = logged st ++ usage_head ToUpper cli ++ ["No seeders registered yet."]) ∧
  (names ≠ [] ->
   exists listing : list (list string),
     logged st' =
       logged st ++ usage_head ToUpper cli ++ usage_listing_head ++
       concat listing ++ usage_foot cli ∧
     length listing = length names ∧
     forall i name,
       names !! i = Some name ->
       listing !! i =
         Some ["  " +:+ pretty (i + 1) +:+ ". " +:+ name;
               "     Command: " +:+ appName cli +:+ " -type=" +:+ name;
               ""]).
Proof.
  cbv zeta. unfold after, result. rewrite Usage_unfold.
  cbn [fst snd manager world logged invoked].
  repeat split.
  - intros ->. done.
  - intros Hnames. exists (imap (usage_entry cli) (GetRegisteredSeeders (manager st))).
    split; [|split].
    + unfold usage_text. by destruct (GetRegisteredSeeders (manager st)).
    + apply length_imap.
    + intros i name Hi. by rewrite list_lookup_imap, Hi.
Qed.


End Dispatcher.


(** ** Further properties of the manager *)

Section MoreRegistry.

Context {World : Type}.
Implicit Types (st : Proc (World := World)) (sm : SeederManager (World := World)).
Implicit Types (name : string) (function : SeederFunc (World := World)).

Lemma RegisterSeeders_app_eq xs ys st :
  RegisterSeeders (xs ++ ys) st =
    match RegisterSeeders xs st with
    | (Ret None, st') => RegisterSeeders ys st'
    | other => other
    end.
Proof.
  revert st. induction xs as [|x xs IH]; intros st; [done|].
  simpl app. rewrite !RegisterSeeders_cons.
  destruct (register_item x st) as [[[e|]|code] st']; [done| |done]. apply IH.
Qed.

Lemma RunSeedersInOrder_app_eq xs ys st :
  RunSeedersInOrder (xs ++ ys) st =
    match RunSeedersInOrder xs st with
    | (Ret None, st') => RunSeedersInOrder ys st'
    | other => other
    end.
Proof.
  revert st. induction xs as [|x xs IH]; intros st; [done|].
  simpl app. rewrite !RunSeedersInOrder_cons.
  destruct (RunSeederByName x st) as [[[e|]|code] st']; [done| |done]. apply IH.
Qed.

Lemma RegisterSeeder_keeps_lookup name function other g st :
  seederMap (manager st) !! other = Some g ->
  seederMap (manager (after (RegisterSeeder name function) st)) !! other = Some g.
Proof.
  intros Hother. unfold after. rewrite RegisterSeeder_unfold.
  case_decide; [done|].
  destruct (seederMap (manager st) !! name) eqn:Hname; [done|]. simpl.
  rewrite lookup_insert_ne; [done|]. intros ->. congruence.
Qed.

Lemma RegisterSeeder_prefix name function st :
  seeders (manager st) `prefix_of` seeders (manager (after (RegisterSeeder name function) st)).
Proof.
  unfold after. rewrite RegisterSeeder_unfold. case_decide; [done|].
  destruct (seederMap (manager st) !! name); [done|]. simpl. by apply prefix_app_r.
Qed.

Lemma RegisterSeeders_keeps_lookup items other g st :
  seederMap (manager st) !! other = Some g ->
  seederMap (manager (after (RegisterSeeders items) st)) !! other = Some g.
Proof.
  revert st. induction items as [|item items IH]; intros st Hother; [done|].
  unfold after. rewrite RegisterSeeders_cons.
  pose proof (RegisterSeeder_keeps_lookup (Name item) (Function item) other g st Hother) as H.
  unfold after, register_item in *.
  destruct (RegisterSeeder (Name item) (Function item) st) as [[[e|]|code] st']; simpl in *;
    [done| |done].
  by apply IH.
Qed.

Lemma RegisterSeeders_prefix items st :
  seeders (manager st) `prefix_of` seeders (manager (after (RegisterSeeders items) st)).
Proof.
  revert st. induction items as [|item items IH]; intros st; [done|].
  unfold after. rewrite RegisterSeeders_cons.
  pose proof (RegisterSeeder_prefix (Name item) (Function item) st) as H.
  unfold after, register_item in *.
  destruct (RegisterSeeder (Name item) (Function item) st) as [[[e|]|code] st']; simpl in *;
    [done| |done].
  etrans; [exact H|]. apply IH.
Qed.

Lemma serve_manager_cases r st :
  manager (after (serve r) st) = manager st ∨
  (exists name function,
     manager (after (serve r) st) = manager (after (RegisterSeeder name function) st)) ∨
  (exists items,
     manager (after (serve r) st) = manager (after (RegisterSeeders items) st)).
Proof.
  destruct r as [name function|items| |name|name|names|]; unfold after, serve;
    rewrite bind_unfold.
  - right. left. exists name, function.
    by destruct (RegisterSeeder name function st) as [[?|?] ?].
  - right. right. exists items. by destruct (RegisterSeeders items st) as [[?|?] ?].
  - by left.
  - by left.
  - left. pose proof (RunSeederByName_manager name st) as H. unfold after in H.
    by destruct (RunSeederByName name st) as [[?|?] ?].
  - left. pose proof (RunSeedersInOrder_manager names st) as H. unfold after in H.
    by destruct (RunSeedersInOrder names st) as [[?|?] ?].
  - left. pose proof (RunAllSeeders_manager st) as H. unfold after in H.
    by destruct (RunAllSeeders st) as [[?|?] ?].
Qed.

(** X1. [GetRegisteredSeeders] returns one name for each item of the
    slice, in the order of the slice: the loop over the indices writes
    every slot. *)
Theorem GetRegisteredSeeders_order sm :
  GetRegisteredSeeders sm = Name <$> seeders sm ∧
  length (GetRegisteredSeeders sm) = length (seeders sm) ∧
  (forall i, GetRegisteredSeeders sm !! i = Name <$> (seeders sm !! i)).
Proof.
  rewrite GetRegisteredSeeders_names. split; [done|]. split.
  - apply length_fmap.
  - intros i. apply list_lookup_fmap.
Qed.

(** X2. A seeder that [RegisterSeeder] has accepted is the one
    [RunSeederByName] runs under that name: it is called once, on the world
    as it is, and its error comes back wrapped; the functions of the other
    names are as before. *)
Theorem RegisterSeeder_then_RunSeederByName name function st :
  result (RegisterSeeder name function) st = Ret None ->
  let st1 := after (RegisterSeeder name function) st in
  IsSeederRegistered (manager st1) name = true ∧
  invoked (after (RunSeederByName name) st1) = invoked st ++ [function] ∧
  world (after (RunSeederByName name) st1) = (function (world st)).2 ∧
  result (RunSeederByName name) st1 =
    Ret (match (function (world st)).1 with
         | Some cause => Some (ExecutionFailed name cause)
         | None => None
         end) ∧
  (forall other,
     other ≠ name ->
     seederMap (manager st1) !! other = seederMap (manager st) !! other).
Proof.
  unfold after, result. rewrite RegisterSeeder_unfold. case_decide; [done|].
  destruct (seederMap (manager st) !! name) eqn:Hname; [done|]. intros _.
  cbv zeta. rewrite RunSeederByName_unfold.
  cbn [fst snd registered manager world logged invoked seederMap seeders].
  rewrite lookup_insert_eq. unfold IsSeederRegistered.
  cbn [seederMap]. rewrite lookup_insert_eq.
  destruct (function (world st)) as [[e|] w]; simpl; repeat split;
    intros other Hother; by rewrite lookup_insert_ne.
Qed.

(** X3. [RegisterSeeders] returns nil exactly when the names of the items
    are non-empty, distinct and not yet registered; the slice is then the
    old one followed by the items, and each item's function is in the map
    under its name. *)
Theorem RegisterSeeders_succeeds_iff items st :
  (result (RegisterSeeders items) st = Ret None <->
   NoDup (Name <$> items) ∧
   forall item, item ∈ items ->
     Name item ≠ "" ∧ IsSeederRegistered (manager st) (Name item) = false) ∧
  (result (RegisterSeeders items) st = Ret None ->
   let st' := after (RegisterSeeders items) st in
   seeders (manager st') = seeders (manager st) ++ items ∧
   forall item, item ∈ items -> seederMap (manager st') !! Name item = Some (Function item)).
Proof.
  revert st. induction items as [|item items IH]; intros st.
  { split; [|intros _; simpl; rewrite (right_id_L [] (++)); split; [done|]].
    - split; [intros _|done]. split; [constructor|].
      intros item Hin. by apply elem_of_nil in Hin.
    - intros item Hin. by apply elem_of_nil in Hin. }
  unfold after, result in *. rewrite RegisterSeeders_cons. unfold register_item.
  rewrite RegisterSeeder_unfold.
  destruct (decide (Name item = "")) as [Hempty|Hname].
  { split; [|done]. split; [done|]. intros [_ Hall].
    destruct (Hall item) as [? _]; [by left|done]. }
  destruct (seederMap (manager st) !! Name item) as [g|] eqn:Hitem.
  { split; [|done]. split; [done|]. intros [_ Hall].
    destruct (Hall item) as [_ Hnew]; [by left|].
    apply IsSeederRegistered_false in Hnew. congruence. }
  destruct (IH (registered (Name item) (Function item) st)) as [Hiff Hstate].
  split.
  - rewrite Hiff. rewrite fmap_cons, NoDup_cons. split.
    + intros [Hnodup Hall]. split; [split; [|done]|].
      * intros (other & Heq & Hin)%list_elem_of_fmap.
        destruct (Hall other Hin) as [_ Hnew%IsSeederRegistered_false].
        simpl in Hnew. rewrite <- Heq, lookup_insert_eq in Hnew. done.
      * intros other [->|Hin]%elem_of_cons.
        { split; [done|]. by apply IsSeederRegistered_false. }
        destruct (Hall other Hin) as [Hne Hnew%IsSeederRegistered_false].
        split; [done|]. apply IsSeederRegistered_false.
        simpl in Hnew. apply lookup_insert_None in Hnew as [? _]. done.
    + intros [[Hfresh Hnodup] Hall]. split; [done|].
      intros other Hin. destruct (Hall other) as [Hne Hnew%IsSeederRegistered_false];
        [by right|].
      split; [done|]. apply IsSeederRegistered_false. simpl.
      apply lookup_insert_None. split; [done|].
      intros Heq. apply Hfresh. apply list_elem_of_fmap. by exists other.
  - intros Hnil. destruct (Hstate Hnil) as [Hseeders Hmap]. cbv zeta in *.
    split.
    + rewrite Hseeders. simpl. rewrite <- (assoc_L (++)). by destruct item.
    + intros other [->|Hin]%elem_of_cons; [|by apply Hmap].
      pose proof (RegisterSeeders_keeps_lookup items (Name item) (Function item)
                    (registered (Name item) (Function item) st)) as Hkeep.
      unfold after in Hkeep. apply Hkeep. simpl. apply lookup_insert_eq.
Qed.

End MoreRegistry.

Section MoreExecution.

Context {World : Type} (ToUpper : string -> string).
Implicit Types (st : Proc (World := World)) (cli : CLI).

(** X4. Running seeders and printing never change the manager: after
    [RunSeederByName], [RunSeedersInOrder], [RunAllSeeders], [Usage] and
    [Run] (whether it returns or exits) the slice and the map are what they
    were. *)
Theorem execution_keeps_manager st :
  (forall name, manager (after (RunSeederByName name) st) = manager st) ∧
  (forall names, manager (after (RunSeedersInOrder names) st) = manager st) ∧
  manager (after RunAllSeeders st) = manager st ∧
  (forall cli, manager (after (Usage ToUpper cli) st) = manager st) ∧
  (forall cli seedType, manager (after (Run ToUpper cli seedType) st) = manager st).
Proof.
  split; [intros name; apply RunSeederByName_manager|].
  split; [intros names; apply RunSeedersInOrder_manager|].
  split; [apply RunAllSeeders_manager|].
  split; [intros cli; unfold after; by rewrite Usage_unfold|].
  intros cli seedType. unfold after at 1. rewrite Run_unfold.
  case_decide; [unfold after; by rewrite Usage_unfold|]. cbv zeta.
  case_decide.
  - fold (after RunAllSeeders
            (after (Println ("Starting seeder with type: " +:+ seedType)) st)).
    by rewrite RunAllSeeders_manager.
  - destruct (IsSeederRegistered (manager st) seedType).
    + fold (after (RunSeederByName seedType)
              (after (Println ("Starting seeder with type: " +:+ seedType)) st)).
      by rewrite RunSeederByName_manager.
    + unfold after. by rewrite Usage_unfold.
Qed.

(** X5. [RunSeedersInOrder] on a list in two parts runs the first part and,
    when that returns nil, the second part from the state it left; an error
    of the first part is the result, and the second part is not run. *)
Theorem RunSeedersInOrder_app xs ys st :
  RunSeedersInOrder (xs ++ ys) st =
    match RunSeedersInOrder xs st with
    | (Ret None, st') => RunSeedersInOrder ys st'
    | other => other
    end.
Proof. apply RunSeedersInOrder_app_eq. Qed.

(** X6. [RegisterSeeders] on a list in two parts registers the first part
    and, when that returns nil, the second part; an error of the first part
    is the result, and nothing of the second part is registered. *)
Theorem RegisterSeeders_app xs ys st :
  RegisterSeeders (xs ++ ys) st =
    match RegisterSeeders xs st with
    | (Ret None, st') => RegisterSeeders ys st'
    | other => other
    end.
Proof. apply RegisterSeeders_app_eq. Qed.

(** X7. [RunSeedersInOrder] calls only functions registered under the names
    it is given, one for each name from the first on, in that order; when
    it returns nil it has called one for every name. *)
Theorem RunSeedersInOrder_calls_named names st :
  exists fs,
    invoked (after (RunSeedersInOrder names) st) = invoked st ++ fs ∧
    Forall2 (fun name f => seederMap (manager st) !! name = Some f)
            (take (length fs) names) fs ∧
    (result (RunSeedersInOrder names) st = Ret None -> length fs = length names).
Proof.
  revert st. induction names as [|name names IH]; intros st.
  { exists []. rewrite (right_id_L [] (++)). repeat split. constructor. }
  unfold after, result in *. rewrite RunSeedersInOrder_cons, RunSeederByName_unfold.
  destruct (seederMap (manager st) !! name) as [function|] eqn:Hname.
  - destruct (function (world st)) as [[e|] w].
    + exists [function]. simpl. repeat split; [|done].
      constructor; [done|constructor].
    + match goal with |- context [RunSeedersInOrder names ?s] =>
        destruct (IH s) as (fs & Hinvoked & Hnamed & Hall) end.
      exists (function :: fs). rewrite Hinvoked. simpl in *.
      rewrite <- (assoc_L (++)). repeat split; [by constructor|].
      intros Hnil. f_equal. by apply Hall.
  - exists []. simpl. rewrite (right_id_L [] (++)). repeat split; [constructor|done].
Qed.

Lemma run_item_unfold (item : SeederItem (World := World)) st :
  run_item item st =
    match Function item (world st) with
    | (Some e, w) =>
        (Ret (Some (ExecutionFailed (Name item) e)),
         mkProc (manager st) w (logged st ++ ["Running seeder: " +:+ Name item])
                (invoked st ++ [Function item]))
    | (None, w) =>
        (Ret None,
         mkProc (manager st) w
                (logged st ++ ["Running seeder: " +:+ Name item;
                               "Seeder '" +:+ Name item +:+ "' completed successfully"])
                (invoked st ++ [Function item]))
    end.
Proof.
  unfold run_item.
  unfold mbind, Go_bind, mret, Go_ret, Printf, Println, call.
  cbn beta iota delta [manager world logged invoked].
  destruct (Function item (world st)) as [[e|] w];
    cbn beta iota delta [manager world logged invoked];
    autorewrite with fmt; [done|].
  by rewrite <- (assoc_L (++)).
Qed.




(** X9. What is registered stays registered: through any further calls a
    name keeps the function it was registered with, and the slice keeps
    its items at their places. *)
Theorem registration_is_permanent rs st name function :
  seederMap (manager st) !! name = Some function ->
  seederMap (manager (replay rs st)) !! name = Some function ∧
  seeders (manager st) `prefix_of` seeders (manager (replay rs st)).
Proof.
  revert st. induction rs as [|r rs IH]; intros st Hname; [done|].
  simpl.
  assert (seederMap (manager (after (serve r) st)) !! name = Some function ∧
          seeders (manager st) `prefix_of` seeders (manager (after (serve r) st)))
    as [Hkeep Hprefix].
  { destruct (serve_manager_cases r st) as [->|[(n & f & ->)|(items & ->)]].
    - done.
    - split; [by apply RegisterSeeder_keeps_lookup|apply RegisterSeeder_prefix].
    - split; [by apply RegisterSeeders_keeps_lookup|apply RegisterSeeders_prefix]. }
  destruct (IH _ Hkeep) as [Hmap Hslice]. split; [done|]. by etrans.
Qed.

(** X10. Registering runs nothing: [RegisterSeeder] and [RegisterSeeders]
    call no seeder and leave the world as it is, whether they succeed or
    fail. *)
Theorem registration_calls_no_seeder st :
  (forall name function,
     invoked (after (RegisterSeeder name function) st) = invoked st ∧
     world (after (RegisterSeeder name function) st) = world st) ∧
  (forall items,
     invoked (after (RegisterSeeders items) st) = invoked st ∧
     world (after (RegisterSeeders items) st) = world st).
Proof.
  assert (forall name function (s : Proc (World := World)),
    invoked (after (RegisterSeeder name function) s) = invoked s ∧
    world (after (RegisterSeeder name function) s) = world s) as Hone.
  { intros name function s. unfold after. rewrite RegisterSeeder_unfold.
    case_decide; [done|]. by destruct (seederMap (manager s) !! name). }
  split; [intros; apply Hone|].
  intros items. revert st. induction items as [|item items IH]; intros st; [done|].
  unfold after in *. rewrite RegisterSeeders_cons. unfold register_item.
  destruct (Hone (Name item) (Function item) st) as [Hinvoked Hworld].
  unfold after in *.
  destruct (RegisterSeeder (Name item) (Function item) st) as [[[e|]|code] st'];
    simpl in *; [done| |done].
  destruct (IH st') as [-> ->]. done.
Qed.


(** *** The log only grows *)

Lemma for_range_logged {A R} (l : list A) (body : A -> Go (World := World) (option R)) :
  (forall x s, logged s `prefix_of` logged (after (body x) s)) ->
  forall st, logged st `prefix_of` logged (after (for_range l body) st).
Proof.
  intros Hbody. induction l as [|x l IH]; intros st; [done|].
  unfold after in *. rewrite for_range_cons. specialize (Hbody x st).
  destruct (body x st) as [[[v|]|code] st']; simpl in *; [done| |done].
  etrans; [exact Hbody|apply IH].
Qed.

Lemma RegisterSeeder_logged name function st :
  logged st `prefix_of` logged (after (RegisterSeeder name function) st).
Proof.
  unfold after. rewrite RegisterSeeder_unfold. case_decide; [done|].
  destruct (seederMap (manager st) !! name); [done|]. simpl. by apply prefix_app_r.
Qed.

Lemma RegisterSeeders_logged items st :
  logged st `prefix_of` logged (after (RegisterSeeders items) st).
Proof.
  revert st. induction items as [|item items IH]; intros st; [done|].
  unfold after in *. rewrite RegisterSeeders_cons. unfold register_item.
  pose proof (RegisterSeeder_logged (Name item) (Function item) st) as H. unfold after in H.
  destruct (RegisterSeeder (Name item) (Function item) st) as [[[e|]|code] st'];
    simpl in *; [done| |done].
  etrans; [exact H|apply IH].
Qed.

Lemma RunSeederByName_logged name st :
  logged st `prefix_of` logged (after (RunSeederByName name) st).
Proof.
  unfold after. rewrite RunSeederByName_unfold.
  destruct (seederMap (manager st) !! name) as [function|]; [|done].
  destruct (function (world st)) as [[e|] w]; simpl; by apply prefix_app_r.
Qed.

Lemma RunSeedersInOrder_logged names st :
  logged st `prefix_of` logged (after (RunSeedersInOrder names) st).
Proof.
  revert st. induction names as [|name names IH]; intros st; [done|].
  unfold after in *. rewrite RunSeedersInOrder_cons.
  pose proof (RunSeederByName_logged name st) as H. unfold after in H.
  destruct (RunSeederByName name st) as [[[e|]|code] st']; simpl in *; [done| |done].
  etrans; [exact H|apply IH].
Qed.

Lemma run_item_logged (item : SeederItem (World := World)) st :
  logged st `prefix_of` logged (after (run_item item) st).
Proof.
  unfold after. rewrite run_item_unfold.
  destruct (Function item (world st)) as [[e|] w]; simpl; by apply prefix_app_r.
Qed.

Lemma RunAllSeeders_logged st :
  logged st `prefix_of` logged (after RunAllSeeders st).
Proof.
  unfold after. rewrite RunAllSeeders_unfold.
  match goal with |- context [for_range ?l run_item ?s] =>
    pose proof (for_range_logged l run_item run_item_logged s) as H end.
  unfold after in H. simpl in H.
  match goal with |- context [for_range ?l run_item ?s] =>
    destruct (for_range l run_item s) as [[[e|]|code] st'] end; simpl in *.
  - etrans; [|exact H]. by apply prefix_app_r.
  - etrans; [|apply prefix_app_r; reflexivity]. etrans; [|exact H]. by apply prefix_app_r.
  - etrans; [|exact H]. by apply prefix_app_r.
Qed.

(** X12. Nothing that was logged is ever rewritten: every method of the
    manager, [Usage] and [Run] only add lines after the ones already
    there. *)
Theorem log_only_grows st :
  (forall r, logged st `prefix_of` logged (after (serve r) st)) ∧
  (forall cli, logged st `prefix_of` logged (after (Usage ToUpper cli) st)) ∧
  (forall cli seedType, logged st `prefix_of` logged (after (Run ToUpper cli seedType) st)).
Proof.
  split; [|split].
  - intros r. destruct r as [name function|items| |name|name|names|]; unfold after, serve;
      rewrite bind_unfold.
    + pose proof (RegisterSeeder_logged name function st) as H. unfold after in H.
      by destruct (RegisterSeeder name function st) as [[?|?] ?].
    + pose proof (RegisterSeeders_logged items st) as H. unfold after in H.
      by destruct (RegisterSeeders items st) as [[?|?] ?].
    + done.
    + done.
    + pose proof (RunSeederByName_logged name st) as H. unfold after in H.
      by destruct (RunSeederByName name st) as [[?|?] ?].
    + pose proof (RunSeedersInOrder_logged names st) as H. unfold after in H.
      by destruct (RunSeedersInOrder names st) as [[?|?] ?].
    + pose proof (RunAllSeeders_logged st) as H. unfold after in H.
      by destruct (RunAllSeeders st) as [[?|?] ?].
  - intros cli. unfold after. rewrite Usage_unfold. cbn [snd logged].
    by apply prefix_app_r.
  - intros cli seedType. unfold after at 1. rewrite Run_unfold.
    case_decide.
    { unfold after. rewrite Usage_unfold. cbn [snd logged]. by apply prefix_app_r. }
    cbv zeta. case_decide.
    + etrans; [|apply (RunAllSeeders_logged
                        (after (Println ("Starting seeder with type: " +:+ seedType)) st))].
      unfold after, Println. cbn [snd logged]. by apply prefix_app_r.
    + destruct (IsSeederRegistered (manager st) seedType).
      * etrans; [|apply (RunSeederByName_logged seedType
                          (after (Println ("Starting seeder with type: " +:+ seedType)) st))].
        unfold after, Println. cbn [snd logged]. by apply prefix_app_r.
      * unfold after. rewrite Usage_unfold. cbn [snd logged].
        rewrite <- (assoc_L (++)). by apply prefix_app_r.
Qed.

(** X13. In every reachable state the map has as many entries as the slice
    has items. *)
Theorem reachable_same_size st :
  reachable st ->
  size (seederMap (manager st)) = length (seeders (manager st)).
Proof.
  intros Hst%reachable_consistent.
  rewrite <- (length_fmap Name (seeders (manager st))).
  rewrite <- size_dom.
  change (size (dom (seederMap (manager st))))
    with (length (elements (dom (seederMap (manager st))))).
  apply Permutation_length, NoDup_Permutation.
  - apply NoDup_elements.
  - apply (consistent_NoDup _ Hst).
  - intros name. rewrite elem_of_elements, elem_of_dom. split.
    + apply (consistent_keys _ Hst).
    + intros (item & -> & Hin)%list_elem_of_fmap.
      rewrite (consistent_lookup _ Hst item Hin). by eauto.
Qed.

(** X14. [Usage] names every registered seeder: for each name of
    [GetRegisteredSeeders] the log holds, after the call, the command line
    of that name; and the call adds 10 lines when nothing is registered and
    14 lines plus 3 for each name otherwise. *)
Theorem Usage_lists_every_name cli st :
  let names := GetRegisteredSeeders (manager st) in
  let st' := after (Usage ToUpper cli) st in
  (forall name,
     name ∈ names ->
     ("     Command: " +:+ appName cli +:+ " -type=" +:+ name) ∈ logged st') ∧
  length (logged st') =
    length (logged st) +
    match names with
    | [] => 10
    | _ => 14 + 3 * length names
    end.
Proof.
  cbv zeta. unfold after. rewrite Usage_unfold. cbn [snd logged].
  assert (forall (l : list string) i,
            length (concat (imap (fun j => usage_entry cli (i + j)) l)) = 3 * length l)
    as Hlen.
  { induction l as [|x l IH]; intros i; [done|].
    rewrite imap_cons. change (concat (?y :: ?k)) with (y ++ concat k).
    rewrite length_app. change (length (usage_entry cli (i + 0) x)) with 3.
    rewrite (imap_ext _ (fun j => usage_entry cli (S i + j)) l).
    - rewrite IH. simpl length. lia.
    - intros j y _. simpl. f_equal. lia. }
  split.
  - intros name (i & Hi)%list_elem_of_lookup.
    apply elem_of_app. right. unfold usage_text.
    destruct (GetRegisteredSeeders (manager st)) as [|n names] eqn:Hnames;
      [by rewrite lookup_nil in Hi|].
    apply elem_of_app. right. apply elem_of_app. right. apply elem_of_app. left.
    apply list_elem_of_In, in_concat. exists (usage_entry cli i name). split.
    + apply list_elem_of_In, list_elem_of_lookup. exists i.
      by rewrite list_lookup_imap, Hi.
    + apply list_elem_of_In. unfold usage_entry. right. left.
  - rewrite length_app. f_equal. unfold usage_text. rewrite length_app.
    change (length (usage_head ToUpper cli)) with 9.
    destruct (GetRegisteredSeeders (manager st)) as [|n names]; [done|].
    rewrite !length_app. pose proof (Hlen (n :: names) 0) as Hnames.
    change (fun j => usage_entry cli (0 + j)) with (usage_entry cli) in Hnames.
    rewrite Hnames.
    change (length (usage_head ToUpper cli)) with 9.
    change (length usage_listing_head) with 2.
    change (length (usage_foot cli)) with 3. lia.
Qed.

End MoreExecution.

(** ** The test utilities *)

Section TestManager.

Context {World : Type}.
Implicit Types (st : Proc (World := World)) (tsm : TestSeederManager.t (World := World)).

Lemma TestSeederManager_RegisterSeeder_agrees name function tsm st :
  TestSeederManager.shouldError tsm = false ->
  same_registry tsm (manager st) ->
  exists err,
    result (RegisterSeeder name function) st = Ret err ∧
    Error <$> (TestSeederManager.RegisterSeeder name function tsm).1 = Error <$> err ∧
    same_registry (TestSeederManager.RegisterSeeder name function tsm).2
                  (manager (after (RegisterSeeder name function) st)) ∧
    TestSeederManager.shouldError (TestSeederManager.RegisterSeeder name function tsm).2
    = false.
Proof.
  intros Hswitch [Hseeders Hmap]. unfold after, result.
  rewrite RegisterSeeder_unfold. unfold TestSeederManager.RegisterSeeder.
  rewrite Hswitch, Hmap. case_decide; [by eexists|].
  destruct (seederMap (manager st) !! name); [by eexists|].
  eexists. split; [done|]. split; [done|]. simpl. split; [|done].
  split; simpl; congruence.
Qed.

(** X15. A test manager with its error switch off registers like the
    manager: started with the same slice and map, [RegisterSeeder] and
    [RegisterSeeders] succeed or fail together on both, with the same error
    message, and leave the same slice and map. *)
Theorem TestSeederManager_registers_alike tsm st :
  TestSeederManager.shouldError tsm = false ->
  same_registry tsm (manager st) ->
  (forall name function,
     exists err,
       result (RegisterSeeder name function) st = Ret err ∧
       Error <$> (TestSeederManager.RegisterSeeder name function tsm).1 = Error <$> err ∧
       same_registry (TestSeederManager.RegisterSeeder name function tsm).2
                     (manager (after (RegisterSeeder name function) st))) ∧
  (forall items,
     exists err,
       result (RegisterSeeders items) st = Ret err ∧
       Error <$> (TestSeederManager.RegisterSeeders items tsm).1 = Error <$> err ∧
       same_registry (TestSeederManager.RegisterSeeders items tsm).2
                     (manager (after (RegisterSeeders items) st))).
Proof.
  intros Hswitch Hsame. split.
  - intros name function.
    destruct (TestSeederManager_RegisterSeeder_agrees name function tsm st Hswitch Hsame)
      as (err & ? & ? & ? & _).
    by exists err.
  - intros items. revert tsm st Hswitch Hsame.
    induction items as [|item items IH]; intros tsm st Hswitch Hsame.
    { by exists None. }
    destruct (TestSeederManager_RegisterSeeder_agrees (Name item) (Function item) tsm st
                Hswitch Hsame) as (err & Hreal & Hmessage & Hsame' & Hswitch').
    unfold after, result in *. rewrite RegisterSeeders_cons. unfold register_item.
    simpl TestSeederManager.RegisterSeeders.
    destruct (RegisterSeeder (Name item) (Function item) st) as [r st'].
    destruct (TestSeederManager.RegisterSeeder (Name item) (Function item) tsm)
      as [[e|] tsm']; simpl in *; subst r; destruct err as [e'|]; try done.
    + eexists. split; [done|]. split; [|done]. simpl in *.
      injection Hmessage as ->. done.
    + by apply IH.
Qed.

Lemma TestSeederManager_run_seeders_agrees (items : list (SeederItem (World := World))) st :
  exists err,
    (for_range items run_item st).1 = Ret err ∧
    Error <$> (TestSeederManager.run_seeders items (world st)).1 = Error <$> err ∧
    (TestSeederManager.run_seeders items (world st)).2
    = world (for_range items run_item st).2.
Proof.
  revert st. induction items as [|item items IH]; intros st.
  { by exists None. }
  rewrite for_range_cons, run_item_unfold.
  simpl TestSeederManager.run_seeders.
  destruct (Function item (world st)) as [[e|] w].
  - by eexists.
  - match goal with |- context [for_range items run_item ?s] =>
      destruct (IH s) as (err & Hreal & Hmessage & Hworld) end.
    simpl in Hmessage, Hworld. exists err. done.
Qed.

(** X16. A test manager with its error switch off runs like the manager
    on the same slice and map, from the same world: [RunAllSeeders] ends in
    the same world with an error of the same message, and
    [RunSeederByName] ends in the same world, where the manager returns the
    seeder's error wrapped with the name and the test manager returns it
    as it is. *)
Theorem TestSeederManager_runs_alike tsm st :
  TestSeederManager.shouldError tsm = false ->
  same_registry tsm (manager st) ->
  (exists err,
     result RunAllSeeders st = Ret err ∧
     Error <$> (TestSeederManager.RunAllSeeders tsm (world st)).1 = Error <$> err ∧
     (TestSeederManager.RunAllSeeders tsm (world st)).2 = world (after RunAllSeeders st)) ∧
  (forall name,
     (TestSeederManager.RunSeederByName name tsm (world st)).2
     = world (after (RunSeederByName name) st) ∧
     result (RunSeederByName name) st =
       Ret (match seederMap (manager st) !! name with
            | Some _ =>
                ExecutionFailed name
                <$> (TestSeederManager.RunSeederByName name tsm (world st)).1
            | None => Some (NotFound name)
            end) ∧
     (seederMap (manager st) !! name = None ->
      Error <$> (TestSeederManager.RunSeederByName name tsm (world st)).1
      = Some (Error (NotFound name)))).
Proof.
  intros Hswitch [Hseeders Hmap]. split.
  - unfold after, result, TestSeederManager.RunAllSeeders.
    rewrite RunAllSeeders_unfold, Hseeders.
    match goal with |- context [for_range ?l run_item ?s] =>
      destruct (TestSeederManager_run_seeders_agrees l s) as (err & Hreal & Hmessage & Hworld);
      destruct (for_range l run_item s) as [[[e|]|code] st'] end;
      simpl in *; simplify_eq; by eexists.
  - intros name. unfold after, result, TestSeederManager.RunSeederByName.
    rewrite RunSeederByName_unfold, Hswitch, Hmap.
    destruct (seederMap (manager st) !! name) as [function|]; [|done].
    by destruct (function (world st)) as [[e|] w].
Qed.

(** X17. With its error switch on, a test manager refuses to register and
    to run by name: [RegisterSeeder] and [RunSeederByName] return the
    configured message, or their default one when it is empty, and leave
    the manager and the world as they are; [RunSeedersInOrder] stops at its
    first name the same way.  [RunAllSeeders] does not look at the switch. *)
Theorem TestSeederManager_error_switch tsm (w : World) :
  TestSeederManager.shouldError tsm = true ->
  let message default :=
    if decide (TestSeederManager.errorMsg tsm = "") then default
    else TestSeederManager.errorMsg tsm in
  (forall name function,
     TestSeederManager.RegisterSeeder name function tsm
     = (Some (TestError (message "registration error")), tsm)) ∧
  (forall name,
     TestSeederManager.RunSeederByName name tsm w
     = (Some (TestError (message "execution error")), w)) ∧
  (forall name names,
     TestSeederManager.RunSeedersInOrder (name :: names) tsm w
     = (Some (TestError (message "execution error")), w)) ∧
  TestSeederManager.RunSeedersInOrder [] tsm w = (None, w) ∧
  TestSeederManager.RunAllSeeders tsm w
  = TestSeederManager.RunAllSeeders (TestSeederManager.SetErrorBehavior false "" tsm) w.
Proof.
  intros Hswitch. cbv zeta.
  assert (forall name,
    TestSeederManager.RunSeederByName name tsm w
    = (Some (TestError (if decide (TestSeederManager.errorMsg tsm = "")
                        then "execution error" else TestSeederManager.errorMsg tsm)), w))
    as Hrun.
  { intros name. unfold TestSeederManager.RunSeederByName. rewrite Hswitch.
    by destruct (decide (TestSeederManager.errorMsg tsm = "")) as [->|?];
      [rewrite decide_False by (by intros H; apply H)|rewrite decide_True by done]. }
  split; [|split; [done|split; [|done]]].
  - intros name function. unfold TestSeederManager.RegisterSeeder. rewrite Hswitch.
    by destruct (decide (TestSeederManager.errorMsg tsm = "")) as [->|?];
      [rewrite decide_False by (by intros H; apply H)|rewrite decide_True by done].
  - intros name names. simpl. by rewrite Hrun.
Qed.

End TestManager.

Section TestSeeders.

Implicit Types (st : Proc (World := gmap nat (list string))).

Lemma Build_AddTestSeeder configs tdb :
  TestDataBuilder.Build (foldl (flip TestDataBuilder.AddTestSeeder) tdb configs)
  = TestDataBuilder.seeders tdb ++
    ((fun config =>
        mkSeederItem (TestSeederFunction.Name config) (CreateTestSeeder config)) <$> configs).
Proof.
  revert tdb. induction configs as [|config configs IH]; intros tdb; simpl.
  - by rewrite (right_id_L [] (++)).
  - rewrite IH. simpl. by rewrite <- (assoc_L (++)).
Qed.

Lemma for_range_test_seeders configs p st :
  Forall (fun config => TestSeederFunction.ExecutionLog config = Some p) configs ->
  let items :=
    (fun config =>
       mkSeederItem (TestSeederFunction.Name config) (CreateTestSeeder config)) <$> configs in
  (for_range items run_item st).1 = Ret (first_failure configs) ∧
  default [] (world (for_range items run_item st).2 !! p)
  = default [] (world st !! p) ++ (TestSeederFunction.Name <$> executed configs) ∧
  (forall q, q ≠ p ->
     world (for_range items run_item st).2 !! q = world st !! q).
Proof.
  cbv zeta. intros Hlog. revert st.
  induction Hlog as [|config configs Hp _ IH]; intros st.
  { simpl. by rewrite (right_id_L [] (++)). }
  assert (CreateTestSeeder config (world st) =
          (if TestSeederFunction.ShouldError config
           then Some (TestError (if decide (TestSeederFunction.ErrorMsg config = "")
                                 then "test error"
                                 else TestSeederFunction.ErrorMsg config))
           else None,
           <[p := default [] (world st !! p) ++ [TestSeederFunction.Name config]]>
             (world st))) as Hrun.
  { unfold CreateTestSeeder. rewrite Hp.
    destruct (TestSeederFunction.ShouldError config); [|done].
    by destruct (decide (TestSeederFunction.ErrorMsg config = "")) as [->|?];
      [rewrite decide_False by (by intros H; apply H)|rewrite decide_True by done]. }
  rewrite fmap_cons, for_range_cons, run_item_unfold.
  cbn [Name Function]. rewrite Hrun. simpl executed. simpl first_failure.
  destruct (TestSeederFunction.ShouldError config).
  - cbn [fst snd world]. rewrite lookup_insert_eq. simpl.
    repeat split. intros q Hq. by rewrite lookup_insert_ne.
  - match goal with |- context [for_range _ run_item ?s] =>
      destruct (IH s) as (Hresult & Hp' & Hframe) end.
    split; [done|]. split.
    + rewrite Hp'. cbn [world]. rewrite lookup_insert_eq. simpl.
      by rewrite <- (assoc_L (++)).
    + intros q Hq. rewrite Hframe by done. cbn [world]. by rewrite lookup_insert_ne.
Qed.

(** X18. Seeders made by [CreateTestSeeder] record their run: when the
    slice of the manager is what a [TestDataBuilder] builds from
    configurations that share one execution log, [RunAllSeeders] appends to
    that log the names of the configurations in order, up to and with the
    first that is to fail, returns that one's error ([test error] when it
    has no message) wrapped with its name, or nil when none is to fail,
    and leaves the other logs alone. *)
Theorem test_seeders_record_execution configs p st :
  seeders (manager st)
  = TestDataBuilder.Build
      (foldl (flip TestDataBuilder.AddTestSeeder) TestDataBuilder.NewTestDataBuilder configs) ->
  Forall (fun config => TestSeederFunction.ExecutionLog config = Some p) configs ->
  let st' := after RunAllSeeders st in
  result RunAllSeeders st = Ret (first_failure configs) ∧
  default [] (world st' !! p)
  = default [] (world st !! p) ++ (TestSeederFunction.Name <$> executed configs) ∧
  (forall q, q ≠ p -> world st' !! q = world st !! q).
Proof.
  intros Hseeders Hlog. cbv zeta. unfold after, result.
  rewrite RunAllSeeders_unfold, Hseeders, Build_AddTestSeeder. simpl app.
  match goal with |- context [for_range _ run_item ?s] =>
    destruct (for_range_test_seeders configs p s Hlog) as (Hresult & Hp & Hframe) end.
  cbv zeta in *.
  match goal with |- context [for_range ?l run_item ?s] =>
    destruct (for_range l run_item s) as [[[e|]|code] st'] end;
    simpl in *; by rewrite <- ?Hresult.
Qed.

End TestSeeders.

Section ErrorSeeder.

Implicit Types (st : Proc (World := gmap nat (list string))).

(** X19. A seeder made by [CreateErrorSeeder], once registered, fails when it
    is run by name: [RunSeederByName] returns its message ([test error]
    when the message given is empty) wrapped with the name, and no
    execution log changes. *)
Theorem CreateErrorSeeder_fails name errorMsg st :
  result (register_item (CreateErrorSeeder name errorMsg)) st = Ret None ->
  let st1 := after (register_item (CreateErrorSeeder name errorMsg)) st in
  result (RunSeederByName name) st1 =
    Ret (Some (ExecutionFailed name
                 (TestError (if decide (errorMsg = "") then "test error" else errorMsg)))) ∧
  world (after (RunSeederByName name) st1) = world st.
Proof.
  unfold after, result, register_item. cbn [Name Function CreateErrorSeeder].
  rewrite RegisterSeeder_unfold. case_decide; [done|].
  destruct (seederMap (manager st) !! name) eqn:Hname; [done|]. intros _.
  cbv zeta. rewrite RunSeederByName_unfold.
  cbn [fst snd registered manager world logged invoked seederMap seeders].
  rewrite lookup_insert_eq. unfold CreateTestSeeder.
  cbn [TestSeederFunction.ExecutionLog TestSeederFunction.ShouldError
       TestSeederFunction.ErrorMsg TestSeederFunction.Name].
  by destruct (decide (errorMsg = "")) as [->|?];
    [rewrite decide_False by (by intros Hne; apply Hne)|rewrite decide_True by done].
Qed.

End ErrorSeeder.
(** ** The claims on the concrete process *)

Module Witness.

Import Demo.

Lemma st_two_reachable : reachable st_two.
Proof.
  exact (reachable_serve _ register_departments
           (reachable_serve _ register_users (reachable_fresh [] []))).
Defined.

Lemma st_abc_reachable : reachable st_abc.
Proof.
  exact (reachable_serve _ (ReqRegisterSeeder "C" (ok "C"))
           (reachable_serve _ (ReqRegisterSeeder "B" (failing "B" "boom"))
              (reachable_serve _ (ReqRegisterSeeder "A" (ok "A"))
                 (reachable_fresh [] [])))).
Defined.


Lemma RegisterSeeder_correct_witness :
  RegisterSeeder "" (ok "users") st_two = (Ret (Some InvalidName), st_two) ∧
  ("users" ≠ "" ∧
   seederMap (manager st_two) !! "users" = Some (ok "users") ∧
   RegisterSeeder "users" (failing "users" "boom") st_two
   = (Ret (Some (DuplicateName "users")), st_two) ∧
   seederMap (manager (after (RegisterSeeder "users" (failing "users" "boom")) st_two))
     !! "users" = Some (ok "users")) ∧
  ("roles" ≠ "" ∧
   IsSeederRegistered (manager st_two) "roles" = false ∧
   GetRegisteredSeeders (manager (after (RegisterSeeder "roles" (ok "roles")) st_two))
   = ["users"; "departments"; "roles"]).
Proof.
  split; [|split].
  - apply (proj1 (RegisterSeeder_correct "" (ok "users") st_two)). reflexivity.
  - assert ("users" ≠ "") as Hname by discriminate.
    assert (seederMap (manager st_two) !! "users" = Some (ok "users")) as Hfirst
      by reflexivity.
    split; [exact Hname|]. split; [exact Hfirst|].
    exact (proj1 (proj2 (RegisterSeeder_correct "users" (failing "users" "boom") st_two))
             (ok "users") Hname Hfirst).
  - assert ("roles" ≠ "") as Hname by discriminate.
    assert (IsSeederRegistered (manager st_two) "roles" = false) as Hnew by reflexivity.
    split; [exact Hname|]. split; [exact Hnew|].
    destruct (proj2 (proj2 (RegisterSeeder_correct "roles" (ok "roles") st_two)) Hname Hnew)
      as (_ & Hseeders & _).
    rewrite GetRegisteredSeeders_names, Hseeders. reflexivity.
Defined.

(** Properties 4 and 7 of the package's tests, through C2. *)
Lemma RunAllSeeders_as_RunSeedersInOrder_witness :
  reachable st_abc ∧
  result RunAllSeeders st_abc = result (RunSeedersInOrder ["A"; "B"; "C"]) st_abc ∧
  invoked (after RunAllSeeders st_abc)
  = invoked (after (RunSeedersInOrder ["A"; "B"; "C"]) st_abc) ∧
  world (after RunAllSeeders st_abc)
  = world (after (RunSeedersInOrder ["A"; "B"; "C"]) st_abc).
Proof.
  split; [exact st_abc_reachable|].
  destruct (RunAllSeeders_as_RunSeedersInOrder st_abc st_abc_reachable)
    as (Hresult & Hinvoked & _ & Hworld & _).
  split; [exact Hresult|]. split; [exact Hinvoked|exact Hworld].
Defined.

Lemma registry_invariant_witness :
  reachable st_two ∧
  NoDup (GetRegisteredSeeders (manager st_two)) ∧
  GetRegisteredSeeders (manager st_two)
  = registrations [register_users; register_departments] st_new.
Proof.
  split; [exact st_two_reachable|].
  destruct (registry_invariant st_two st_two_reachable) as (_ & Hnodup & _ & Horder & _).
  split; [exact Hnodup|]. exact (Horder [] [] _ eq_refl).
Defined.

Lemma IsSeederRegistered_correct_witness :
  reachable st_two ∧
  (IsSeederRegistered (manager st_two) "users" = true
   <-> "users" ∈ GetRegisteredSeeders (manager st_two)) ∧
  IsSeederRegistered (manager st_two) "" = false.
Proof.
  split; [exact st_two_reachable|].
  destruct (IsSeederRegistered_correct st_two st_two_reachable) as (_ & Hnames & Hempty).
  split; [exact (Hnames "users")|exact Hempty].
Defined.

(** Properties 6 and 8 of the package's tests, through C4. *)
Lemma RunSeederByName_correct_witness :
  (IsSeederRegistered (manager st_two) "nope" = false ∧
   RunSeederByName "nope" st_two = (Ret (Some (NotFound "nope")), st_two)) ∧
  (seederMap (manager st_two) !! "users" = Some (ok "users") ∧
   ok "users" (world st_two) = (None, ["users"]) ∧
   result (RunSeederByName "users") st_two = Ret None ∧
   invoked (after (RunSeederByName "users") st_two) = invoked st_two ++ [ok "users"] ∧
   world (after (RunSeederByName "users") st_two) = ["users"]) ∧
  (seederMap (manager st_abc) !! "B" = Some (failing "B" "boom") ∧
   failing "B" "boom" (world st_abc) = (Some (errorString "boom"), ["B"]) ∧
   result (RunSeederByName "B") st_abc
   = Ret (Some (ExecutionFailed "B" (errorString "boom"))) ∧
   Unwrap (ExecutionFailed "B" (errorString "boom")) = Some (errorString "boom") ∧
   Contains (Error (ExecutionFailed "B" (errorString "boom"))) "B" ∧
   Contains (Error (ExecutionFailed "B" (errorString "boom"))) "boom" ∧
   invoked (after (RunSeederByName "B") st_abc) = invoked st_abc ++ [failing "B" "boom"]).
Proof.
  split; [|split].
  - assert (IsSeederRegistered (manager st_two) "nope" = false) as Hnew by reflexivity.
    split; [exact Hnew|].
    exact (proj1 (RunSeederByName_correct "nope" st_two) Hnew).
  - assert (seederMap (manager st_two) !! "users" = Some (ok "users")) as Hname
      by reflexivity.
    assert (ok "users" (world st_two) = (None, ["users"])) as Hok by reflexivity.
    split; [exact Hname|]. split; [exact Hok|].
    destruct (proj1 (proj2 (RunSeederByName_correct "users" st_two)) _ _ Hname Hok)
      as (Hresult & Hinvoked & Hworld & _).
    split; [exact Hresult|]. split; [exact Hinvoked|exact Hworld].
  - assert (seederMap (manager st_abc) !! "B" = Some (failing "B" "boom")) as Hname
      by reflexivity.
    assert (failing "B" "boom" (world st_abc) = (Some (errorString "boom"), ["B"])) as Hboom
      by reflexivity.
    split; [exact Hname|]. split; [exact Hboom|].
    destruct (proj2 (proj2 (RunSeederByName_correct "B" st_abc)) _ _ _ Hname Hboom)
      as (Hresult & Hunwrap & Hhas_name & Hhas_cause & Hinvoked & _).
    repeat split; assumption.
Defined.

(** Property 5 of the package's tests, and a run that stops at [B], through
    C5. *)
Lemma RunSeedersInOrder_correct_witness :
  (all_nil RunSeederByName ["C"; "A"] st_abc
     (after (RunSeederByName "A") (after (RunSeederByName "C") st_abc)) ∧
   RunSeedersInOrder ["C"; "A"] st_abc
   = (Ret None, after (RunSeederByName "A") (after (RunSeederByName "C") st_abc)) ∧
   world (after (RunSeedersInOrder ["C"; "A"]) st_abc) = ["C"; "A"]) ∧
  (all_nil RunSeederByName ["A"] st_abc (after (RunSeederByName "A") st_abc) ∧
   RunSeederByName "B" (after (RunSeederByName "A") st_abc)
   = (Ret (Some (ExecutionFailed "B" (errorString "boom"))),
      after (RunSeederByName "B") (after (RunSeederByName "A") st_abc)) ∧
   RunSeedersInOrder ["A"; "B"; "C"] st_abc
   = (Ret (Some (ExecutionFailed "B" (errorString "boom"))),
      after (RunSeederByName "B") (after (RunSeederByName "A") st_abc)) ∧
   world (after (RunSeedersInOrder ["A"; "B"; "C"]) st_abc) = ["A"; "B"]).
Proof.
  split.
  - assert (all_nil RunSeederByName ["C"; "A"] st_abc
              (after (RunSeederByName "A") (after (RunSeederByName "C") st_abc))) as Hall.
    { eapply all_nil_cons; [reflexivity|].
      eapply all_nil_cons; [reflexivity|]. apply all_nil_nil. }
    split; [exact Hall|].
    pose proof (proj1 (proj2 (RunSeedersInOrder_correct ["C"; "A"] st_abc)) _ Hall) as Hrun.
    split; [exact Hrun|]. unfold after at 1. rewrite Hrun. reflexivity.
  - assert (all_nil RunSeederByName ["A"] st_abc (after (RunSeederByName "A") st_abc))
      as Hpre.
    { eapply all_nil_cons; [reflexivity|]. apply all_nil_nil. }
    assert (RunSeederByName "B" (after (RunSeederByName "A") st_abc)
            = (Ret (Some (ExecutionFailed "B" (errorString "boom"))),
               after (RunSeederByName "B") (after (RunSeederByName "A") st_abc))) as Hfail
      by reflexivity.
    split; [exact Hpre|]. split; [exact Hfail|].
    pose proof (proj1 (proj2 (proj2 (RunSeedersInOrder_correct ["A"; "B"; "C"] st_abc)))
                  ["A"] "B" ["C"] _ _ _ eq_refl Hpre Hfail) as Hrun.
    split; [exact Hrun|]. unfold after at 1. rewrite Hrun. reflexivity.
Defined.

(** A batch that stops at a duplicate name, through C6. *)
Lemma RegisterSeeders_correct_witness :
  let roles := mkSeederItem "roles" (ok "roles") in
  let again := mkSeederItem "users" (failing "users" "boom") in
  let last := mkSeederItem "permissions" (ok "permissions") in
  let st1 := after (register_item roles) st_two in
  all_nil register_item [roles] st_two st1 ∧
  register_item again st1 = (Ret (Some (DuplicateName "users")), st1) ∧
  RegisterSeeders [roles; again; last] st_two
  = (Ret (Some (RegistrationFailed "users" (DuplicateName "users"))), st1) ∧
  GetRegisteredSeeders (manager st1) = ["users"; "departments"; "roles"] ∧
  Error (RegistrationFailed "users" (DuplicateName "users"))
  = "failed to register seeder 'users': seeder with name 'users' already exists".
Proof.
  cbv zeta.
  assert (all_nil register_item [mkSeederItem "roles" (ok "roles")] st_two
            (after (register_item (mkSeederItem "roles" (ok "roles"))) st_two)) as Hpre.
  { apply all_nil_cons
      with (st1 := after (register_item (mkSeederItem "roles" (ok "roles"))) st_two);
      [vm_compute; reflexivity|]. apply all_nil_nil. }
  assert (register_item (mkSeederItem "users" (failing "users" "boom"))
            (after (register_item (mkSeederItem "roles" (ok "roles"))) st_two)
          = (Ret (Some (DuplicateName "users")),
             after (register_item (mkSeederItem "roles" (ok "roles"))) st_two)) as Hfail
    by reflexivity.
  split; [exact Hpre|]. split; [exact Hfail|].
  destruct (proj1 (proj2 (proj2 (RegisterSeeders_correct
              [mkSeederItem "roles" (ok "roles");
               mkSeederItem "users" (failing "users" "boom");
               mkSeederItem "permissions" (ok "permissions")] st_two)))
              [mkSeederItem "roles" (ok "roles")]
              (mkSeederItem "users" (failing "users" "boom"))
              [mkSeederItem "permissions" (ok "permissions")]
              _ _ _ eq_refl Hpre Hfail) as (Hrun & _).
  split; [exact Hrun|]. split; reflexivity.
Defined.

(** The four ways of [Run], through C8. *)
Lemma Run_correct_witness :
  (result (Run upper cli "") st_two = Ret None ∧
   invoked (after (Run upper cli "") st_two) = invoked st_two ∧
   world (after (Run upper cli "") st_two) = world st_two) ∧
  (Run upper cli "all" st_two
   = RunAllSeeders (after (Println "Starting seeder with type: all") st_two) ∧
   result (Run upper cli "all") st_two = result RunAllSeeders st_two) ∧
  ("users" ≠ "" ∧ "users" ≠ "all" ∧
   IsSeederRegistered (manager st_two) "users" = true ∧
   result (Run upper cli "users") st_two = result (RunSeederByName "users") st_two ∧
   world (after (Run upper cli "users") st_two) = ["users"]) ∧
  ("nope" ≠ "" ∧ "nope" ≠ "all" ∧
   IsSeederRegistered (manager st_two) "nope" = false ∧
   result (Run upper cli "nope") st_two = Exit 1 ∧
   invoked (after (Run upper cli "nope") st_two) = invoked st_two ∧
   world (after (Run upper cli "nope") st_two) = world st_two).
Proof.
  split; [|split; [|split]].
  - destruct (proj1 (Run_correct upper cli "" st_two) eq_refl)
      as (Hresult & _ & Hinvoked & Hworld & _).
    split; [exact Hresult|]. split; [exact Hinvoked|exact Hworld].
  - destruct (proj1 (proj2 (Run_correct upper cli "all" st_two)) eq_refl)
      as (Hrun & Hresult & _).
    split; [exact Hrun|exact Hresult].
  - assert ("users" ≠ "") as Hne by discriminate.
    assert ("users" ≠ "all") as Hnall by discriminate.
    assert (IsSeederRegistered (manager st_two) "users" = true) as Hreg by reflexivity.
    split; [exact Hne|]. split; [exact Hnall|]. split; [exact Hreg|].
    destruct (proj1 (proj2 (proj2 (Run_correct upper cli "users" st_two))) Hne Hnall Hreg)
      as (_ & Hresult & _ & Hworld).
    split; [exact Hresult|]. rewrite Hworld. reflexivity.
  - assert ("nope" ≠ "") as Hne by discriminate.
    assert ("nope" ≠ "all") as Hnall by discriminate.
    assert (IsSeederRegistered (manager st_two) "nope" = false) as Hreg by reflexivity.
    split; [exact Hne|]. split; [exact Hnall|]. split; [exact Hreg|].
    destruct (proj2 (proj2 (proj2 (Run_correct upper cli "nope" st_two))) Hne Hnall Hreg)
      as (Hresult & _ & Hinvoked & Hworld & _).
    split; [exact Hresult|]. split; [exact Hinvoked|exact Hworld].
Defined.

(** [Usage] before and after two registrations, through C9. *)
Lemma Usage_correct_witness :
  (GetRegisteredSeeders (manager st_new) = [] ∧
   logged (after (Usage upper cli) st_new)
   = usage_head upper cli ++ ["No seeders registered yet."]) ∧
  (GetRegisteredSeeders (manager st_two) ≠ [] ∧
   exists listing : list (list string),
     logged (after (Usage upper cli) st_two) =
       logged st_two ++ usage_head upper cli ++ usage_listing_head ++
       concat listing ++ usage_foot cli ∧
     length listing = 2 ∧
     listing !! 0 = Some ["  1. users"; "     Command: my-app seeder -type=users"; ""] ∧
     listing !! 1
     = Some ["  2. departments"; "     Command: my-app seeder -type=departments"; ""]).
Proof.
  split.
  - assert (GetRegisteredSeeders (manager st_new) = []) as Hnames by reflexivity.
    split; [exact Hnames|].
    destruct (Usage_correct upper cli st_new) as (_ & _ & _ & _ & Hempty & _).
    exact (Hempty Hnames).
  - assert (GetRegisteredSeeders (manager st_two) ≠ []) as Hnames by discriminate.
    split; [exact Hnames|].
    destruct (Usage_correct upper cli st_two) as (_ & _ & _ & _ & _ & Hlisting).
    destruct (Hlisting Hnames) as (listing & Hlogged & Hlength & Hentry).
    exists listing. split; [exact Hlogged|]. split; [exact Hlength|].
    split; [exact (Hentry 0 "users" eq_refl)|exact (Hentry 1 "departments" eq_refl)].
Defined.


(** What the README shows for [Usage], and property 4 of the package's
    tests. *)
Example Usage_prints :
  logged (after (Usage upper cli) st_two) =
    logged st_two ++
    ["=============================================================";
     "DATABASE SEEDER - MY-APP SEEDER";
     "=============================================================";
     "";
     "Usage:";
     "  my-app seeder -type=all     # Run all seeders";
     "  my-app seeder -type=<name>  # Run specific seeder";
     "  my-app seeder               # Show this help";
     "";
     "Available seeders (in execution order):";
     "-----------------------------------------";
     "  1. users";
     "     Command: my-app seeder -type=users";
     "";
     "  2. departments";
     "     Command: my-app seeder -type=departments";
     "";
     "Quick commands:";
     "  my-app seeder -type=all     # Run all seeders";
     "============================================================="].
Proof. vm_compute. reflexivity. Qed.

Example RunAllSeeders_stops_at_B :
  result RunAllSeeders st_abc
  = Ret (Some (wrapError "seeder 'B' failed: boom" (errorString "boom"))) ∧
  world (after RunAllSeeders st_abc) = ["A"; "B"].
Proof. split; vm_compute; reflexivity. Qed.

End Witness.

(** ** The further properties on the concrete processes *)

Module MoreWitness.

Import Demo.

Lemma RegisterSeeder_then_RunSeederByName_witness :
  result (RegisterSeeder "roles" (ok "roles")) st_two = Ret None ∧
  IsSeederRegistered (manager (after (RegisterSeeder "roles" (ok "roles")) st_two)) "roles"
  = true ∧
  invoked (after (RunSeederByName "roles")
             (after (RegisterSeeder "roles" (ok "roles")) st_two))
  = invoked st_two ++ [ok "roles"] ∧
  world (after (RunSeederByName "roles")
           (after (RegisterSeeder "roles" (ok "roles")) st_two))
  = ["roles"].
Proof.
  assert (result (RegisterSeeder "roles" (ok "roles")) st_two = Ret None) as Hnil
    by reflexivity.
  split; [exact Hnil|].
  destruct (RegisterSeeder_then_RunSeederByName "roles" (ok "roles") st_two Hnil)
    as (Hreg & Hinvoked & Hworld & _).
  split; [exact Hreg|]. split; [exact Hinvoked|]. rewrite Hworld. reflexivity.
Defined.

Lemma registration_is_permanent_witness :
  seederMap (manager st_two) !! "users" = Some (ok "users") ∧
  seederMap
    (manager (replay [ReqRegisterSeeder "users" (failing "users" "boom");
                      ReqRunAllSeeders;
                      ReqRegisterSeeder "roles" (ok "roles")] st_two))
    !! "users" = Some (ok "users").
Proof.
  assert (seederMap (manager st_two) !! "users" = Some (ok "users")) as Hname
    by reflexivity.
  split; [exact Hname|].
  exact (proj1 (registration_is_permanent _ st_two "users" (ok "users") Hname)).
Defined.


Lemma reachable_same_size_witness :
  reachable st_two ∧ size (seederMap (manager st_two)) = 2.
Proof.
  split; [exact Witness.st_two_reachable|].
  exact (reachable_same_size st_two Witness.st_two_reachable).
Defined.

Import TestDemo.

Lemma same_registry_built : same_registry tsm_built (manager st_built).
Proof. split; reflexivity. Defined.

Lemma TestSeederManager_registers_alike_witness :
  TestSeederManager.shouldError tsm_built = false ∧
  same_registry tsm_built (manager st_built) ∧
  exists err,
    result (RegisterSeeder "users" (CreateTestSeeder (config "users" false))) st_built
    = Ret err ∧
    Error <$> (TestSeederManager.RegisterSeeder "users"
                 (CreateTestSeeder (config "users" false)) tsm_built).1
    = Error <$> err.
Proof.
  assert (TestSeederManager.shouldError tsm_built = false) as Hswitch by reflexivity.
  split; [exact Hswitch|]. split; [exact same_registry_built|].
  destruct (proj1 (TestSeederManager_registers_alike tsm_built st_built Hswitch
                     same_registry_built)
              "users" (CreateTestSeeder (config "users" false)))
    as (err & Hreal & Hmessage & _).
  exists err. split; [exact Hreal|exact Hmessage].
Defined.

Lemma TestSeederManager_runs_alike_witness :
  TestSeederManager.shouldError tsm_built = false ∧
  same_registry tsm_built (manager st_built) ∧
  exists err,
    result RunAllSeeders st_built = Ret err ∧
    Error <$> (TestSeederManager.RunAllSeeders tsm_built (world st_built)).1
    = Error <$> err ∧
    (TestSeederManager.RunAllSeeders tsm_built (world st_built)).2
    = world (after RunAllSeeders st_built).
Proof.
  assert (TestSeederManager.shouldError tsm_built = false) as Hswitch by reflexivity.
  split; [exact Hswitch|]. split; [exact same_registry_built|].
  exact (proj1 (TestSeederManager_runs_alike tsm_built st_built Hswitch
                  same_registry_built)).
Defined.

Lemma TestSeederManager_error_switch_witness :
  let tsm := TestSeederManager.SetErrorBehavior true "" tsm_built in
  TestSeederManager.shouldError tsm = true ∧
  TestSeederManager.RegisterSeeder "extra" (CreateTestSeeder (config "extra" false)) tsm
  = (Some (TestError "registration error"), tsm) ∧
  TestSeederManager.RunSeederByName "users" tsm ∅
  = (Some (TestError "execution error"), ∅).
Proof.
  cbv zeta.
  assert (TestSeederManager.shouldError
            (TestSeederManager.SetErrorBehavior true "" tsm_built) = true) as Hswitch
    by reflexivity.
  split; [exact Hswitch|].
  destruct (TestSeederManager_error_switch
              (TestSeederManager.SetErrorBehavior true "" tsm_built) ∅ Hswitch)
    as (Hregister & Hrun & _).
  split; [exact (Hregister "extra" (CreateTestSeeder (config "extra" false)))|].
  exact (Hrun "users").
Defined.

Lemma test_seeders_record_execution_witness :
  seeders (manager st_built) = built ∧
  Forall (fun c => TestSeederFunction.ExecutionLog c = Some 0) configs ∧
  result RunAllSeeders st_built
  = Ret (Some (ExecutionFailed "departments" (TestError "test error"))) ∧
  default [] (world (after RunAllSeeders st_built) !! 0) = ["users"; "departments"].
Proof.
  assert (seeders (manager st_built) = built) as Hbuilt by reflexivity.
  assert (Forall (fun c => TestSeederFunction.ExecutionLog c = Some 0) configs) as Hlog
    by (repeat constructor).
  split; [exact Hbuilt|]. split; [exact Hlog|].
  destruct (test_seeders_record_execution configs 0 st_built Hbuilt Hlog)
    as (Hresult & Hrecorded & _).
  split; [exact Hresult|exact Hrecorded].
Defined.

Lemma CreateErrorSeeder_fails_witness :
  result (register_item (CreateErrorSeeder "x" "boom")) (fresh ∅ []) = Ret None ∧
  result (RunSeederByName "x")
    (after (register_item (CreateErrorSeeder "x" "boom")) (fresh ∅ []))
  = Ret (Some (ExecutionFailed "x" (TestError "boom"))).
Proof.
  assert (result (register_item (CreateErrorSeeder "x" "boom")) (fresh ∅ []) = Ret None)
    as Hnil by reflexivity.
  split; [exact Hnil|].
  exact (proj1 (CreateErrorSeeder_fails "x" "boom" (fresh ∅ []) Hnil)).
Defined.

End MoreWitness.
